(** * submit_payload.py: the four-step submit / manifest / upload / publish script

    A shallow embedding of [src/submit_payload.py].  Python [str] values are
    sequences of code points, [bytes] values are sequences of bytes, the
    script's effects (printing, launching a child process, [sys.exit], an
    unhandled exception) are threaded through a small monad over a trace. *)

From Stdlib Require Import String Ascii.
From Stdlib Require Import List NArith ZArith Bool Lia.
From Stdlib.Strings Require Import Byte.
From Stdlib Require Import DecimalString DecimalZ DecimalPos.
Import ListNotations.

Local Open Scope N_scope.
Local Open Scope list_scope.

(** ** Python values *)

(** A Python [str]: a sequence of Unicode code points. *)
Definition str := list N.

(** A Python [bytes] object, as [subprocess] hands back the captured streams. *)
Definition bytes := list byte.

(** An ASCII literal of the source as a [str]. *)
Definition lit (s : string) : str :=
  map N_of_ascii (list_ascii_of_string s).

(** The bytes of an ASCII literal (what a child process writes). *)
Definition blit (s : string) : bytes :=
  map byte_of_ascii (list_ascii_of_string s).

Definition dq : str := [34].      (* the double quote character *)
Definition nl : str := [10].      (* the newline character *)

(** The values the script formats with [%s]. *)
Inductive pyval :=
| PStr (s : str)
| PNone
| PInt (z : Z).

(** [str(v)]. *)
Definition py_str (v : pyval) : str :=
  match v with
  | PStr s => s
  | PNone => lit "None"
  | PInt z => lit (NilZero.string_of_int (Z.to_int z))
  end.

(** ** [bytes.decode("utf-8")]

    The strict decoder: shortest forms only, no surrogates, nothing above
    U+10FFFF.  [None] stands for [UnicodeDecodeError]. *)

Definition between (lo hi x : N) : bool := (lo <=? x) && (x <=? hi).

Definition cont (b : N) : bool := between 128 191 b.

Fixpoint utf8_decode_N (bs : list N) : option str :=
  match bs with
  | [] => Some []
  | b0 :: r0 =>
    if b0 <? 128 then option_map (cons b0) (utf8_decode_N r0)
    else if between 194 223 b0 then
      match r0 with
      | b1 :: r1 =>
        if cont b1
        then option_map (cons ((b0 - 192) * 64 + (b1 - 128))) (utf8_decode_N r1)
        else None
      | _ => None
      end
    else if between 224 239 b0 then
      match r0 with
      | b1 :: b2 :: r2 =>
        if between (if b0 =? 224 then 160 else 128)
                   (if b0 =? 237 then 159 else 191) b1 && cont b2
        then option_map
               (cons ((b0 - 224) * 4096 + (b1 - 128) * 64 + (b2 - 128)))
               (utf8_decode_N r2)
        else None
      | _ => None
      end
    else if between 240 244 b0 then
      match r0 with
      | b1 :: b2 :: b3 :: r3 =>
        if between (if b0 =? 240 then 144 else 128)
                   (if b0 =? 244 then 143 else 191) b1 && cont b2 && cont b3
        then option_map
               (cons ((b0 - 240) * 262144 + (b1 - 128) * 4096
                      + (b2 - 128) * 64 + (b3 - 128)))
               (utf8_decode_N r3)
        else None
      | _ => None
      end
    else None
  end.

Definition utf8_decode (b : bytes) : option str :=
  utf8_decode_N (map Byte.to_N b).

(** ** [str.strip()] *)

(** [str.isspace] on one code point (the Unicode whitespace of CPython). *)
Definition isspace (c : N) : bool :=
  between 9 13 c || between 28 32 c || (c =? 133) || (c =? 160)
  || (c =? 5760) || between 8192 8202 c || (c =? 8232) || (c =? 8233)
  || (c =? 8239) || (c =? 8287) || (c =? 12288).

Fixpoint lstrip (s : str) : str :=
  match s with
  | c :: r => if isspace c then lstrip r else s
  | [] => []
  end.

Definition rstrip (s : str) : str := rev (lstrip (rev s)).

Definition strip (s : str) : str := rstrip (lstrip s).

(** ** The regular expression of line 65

    The pattern is a concatenation of atoms, each with a repeat count:
    [[a-z0-9]{8}] is a character set repeated 8 times, [-] a literal. *)

Inductive atom :=
| Class (ranges : list (N * N))
| Chr (c : N).

Definition regex := list (atom * nat).

Definition atom_match (a : atom) (c : N) : bool :=
  match a with
  | Class rs => existsb (fun r => between (fst r) (snd r) c) rs
  | Chr d => c =? d
  end.

(** Match [n] characters of atom [a] at the head of [s]. *)
Fixpoint match_rep (a : atom) (n : nat) (s : str) : option (str * str) :=
  match n with
  | O => Some ([], s)
  | S k =>
    match s with
    | c :: r =>
      if atom_match a c
      then match match_rep a k r with
           | Some (m, r') => Some (c :: m, r')
           | None => None
           end
      else None
    | [] => None
    end
  end.

(** Match the whole pattern at the head of [s]: the matched text and the rest. *)
Fixpoint match_here (re : regex) (s : str) : option (str * str) :=
  match re with
  | [] => Some ([], s)
  | (a, n) :: re' =>
    match match_rep a n s with
    | Some (m, r) =>
      match match_here re' r with
      | Some (m', r') => Some (m ++ m', r')
      | None => None
      end
    | None => None
    end
  end.

(** [re.findall]: the matches from left to right, not overlapping.  [skip]
    counts the characters of the last match that are still to be passed. *)
Fixpoint findall_from (re : regex) (skip : nat) (s : str) : list str :=
  match s with
  | [] =>
    match skip, match_here re [] with
    | O, Some (m, _) => [m]
    | _, _ => []
    end
  | c :: r =>
    match skip with
    | S k => findall_from re k r
    | O =>
      match match_here re s with
      | Some (m, _) => m :: findall_from re (Nat.pred (length m)) r
      | None => findall_from re 0 r
      end
    end
  end.

Definition findall (re : regex) (s : str) : list str := findall_from re 0 s.

(** [[a-z0-9]]. *)
Definition lower_alnum : atom := Class [(97, 122); (48, 57)].

(** [[a-f0-9]]: the hexadecimal digits of a UUID (not what the script uses). *)
Definition lower_hex : atom := Class [(97, 102); (48, 57)].

Definition dash : N := 45.

Definition uuid_pattern (a : atom) : regex :=
  [(a, 8%nat); (Chr dash, 1%nat); (a, 4%nat); (Chr dash, 1%nat);
   (a, 4%nat); (Chr dash, 1%nat); (a, 4%nat); (Chr dash, 1%nat);
   (a, 12%nat)].

(** '[a-z0-9]{8}-[a-z0-9]{4}-[a-z0-9]{4}-[a-z0-9]{4}-[a-z0-9]{12}' *)
Definition analysisId_re : regex := uuid_pattern lower_alnum.

(** ** The [%] operator on a format string

    Only [%s] and [%%] occur in the script.  [None] stands for the
    [TypeError] / [ValueError] of a malformed use. *)

Definition percent : N := 37.

Fixpoint format (t : str) (args : list pyval) : option str :=
  match t with
  | [] =>
    match args with
    | [] => Some []
    | _ :: _ => None                     (* not all arguments converted *)
    end
  | c :: r =>
    if c =? percent then
      match r with
      | d :: r' =>
        if d =? 115 then                 (* %s *)
          match args with
          | a :: args' => option_map (app (py_str a)) (format r' args')
          | [] => None                   (* not enough arguments *)
          end
        else if d =? percent then option_map (cons percent) (format r' args)
        else None
      | [] => None                       (* incomplete format *)
      end
    else option_map (cons c) (format r args)
  end.

(** ** The command line: the six [add_argument] calls and [parse_args]

    Every option stores one string ([type=str], the default action) under
    its [dest]. *)

Inductive dest := token | song_url | score_url | studyId | json | directory.

(** The parser's actions, in the order they are added (lines 12-23). *)
Definition actions : list dest :=
  [token; song_url; score_url; studyId; json; directory].

Definition option_strings (d : dest) : list str :=
  match d with
  | token => [lit "-t"; lit "--token"]
  | song_url => [lit "-a"; lit "--song"]
  | score_url => [lit "-b"; lit "--score"]
  | studyId => [lit "-s"; lit "--study"]
  | json => [lit "-j"; lit "--json"]
  | directory => [lit "-d"; lit "--directory"]
  end.

Definition required (d : dest) : bool :=
  match d with
  | token => true
  | _ => false
  end.

Definition default (d : dest) : pyval :=
  match d with
  | token => PStr (lit "88fe6ab2-8a5a-4ece-8f32-48a3e4db41fd")
  | song_url => PStr (lit "https://song.demo.overture.bio")
  | score_url => PStr (lit "https://score.demo.overture.bio")
  | studyId => PStr (lit "demoData")
  | json => PNone
  | directory => PNone
  end.

Definition dest_eqb (a b : dest) : bool :=
  match a, b with
  | token, token | song_url, song_url | score_url, score_url
  | studyId, studyId | json, json | directory, directory => true
  | _, _ => false
  end.

Fixpoint str_eqb (a b : str) : bool :=
  match a, b with
  | [], [] => true
  | x :: a', y :: b' => (x =? y) && str_eqb a' b'
  | _, _ => false
  end.

(** The namespace [parse_args] returns: one value per [dest]. *)
Definition Namespace := dest -> pyval.

(** What [parse_args] does with the process: it returns a namespace, or it
    leaves through [parser.exit] (status 0 after [-h], status 2 after a usage
    error), both before the script's first statement runs.  [Unmodelled]
    marks the command lines outside the fragment of argparse modelled here:
    abbreviated long options, [--opt=value], [-xVALUE], [--], and values
    that begin with a dash.  argparse classifies every argument before it
    acts on the first one, and an argument outside the fragment can be an
    error there, so help answers only when the arguments after it are all
    inside the fragment. *)
Inductive parse_result :=
| Parsed (args : Namespace)
| ParserExit (status : Z)
| Unmodelled.

Definition is_help (a : str) : bool :=
  str_eqb a (lit "-h") || str_eqb a (lit "--help").

Definition find_action (a : str) : option dest :=
  find (fun d => existsb (str_eqb a) (option_strings d)) actions.

Definition starts_with_dash (a : str) : bool :=
  match a with
  | c :: _ => c =? dash
  | [] => false
  end.

Definition is_some {A} (o : option A) : bool :=
  match o with
  | Some _ => true
  | None => false
  end.

Definition store (seen : dest -> option str) (d : dest) (v : str)
  : dest -> option str :=
  fun d' => if dest_eqb d' d then Some v else seen d'.

(** The end of [parse_known_args] and of [parse_args]: a required action
    that was not seen is an error, then a leftover argument is an error;
    otherwise every unseen action gets its default. *)
Definition finish (seen : dest -> option str) (extras : list str)
  : parse_result :=
  if existsb (fun d => required d && negb (is_some (seen d))) actions
  then ParserExit 2
  else match extras with
       | [] => Parsed (fun d => match seen d with
                                | Some v => PStr v
                                | None => default d
                                end)
       | _ :: _ => ParserExit 2
       end.

(** The arguments that argparse classifies without an error before it
    acts on any of them: an exact option string or a plain word. *)
Definition in_fragment (a : str) : bool :=
  negb (starts_with_dash a) || is_help a || is_some (find_action a).

Fixpoint parse_loop (argv : list str) (seen : dest -> option str)
         (extras : list str) : parse_result :=
  match argv with
  | [] => finish seen extras
  | a :: rest =>
    if is_help a
    then if forallb in_fragment rest then ParserExit 0 else Unmodelled
    else
      match find_action a with
      | Some d =>
        match rest with
        | [] => ParserExit 2                      (* expected one argument *)
        | v :: rest' =>
          if negb (starts_with_dash v)
          then parse_loop rest' (store seen d v) extras
          else if is_help v || is_some (find_action v)
               then ParserExit 2                  (* expected one argument *)
               else Unmodelled
        end
      | None =>
        if starts_with_dash a then Unmodelled
        else parse_loop rest seen (extras ++ [a]) (* unrecognized argument *)
      end
  end.

(** [parser.parse_args()] on [sys.argv[1:]]. *)
Definition parse_args (argv : list str) : parse_result :=
  parse_loop argv (fun _ => None) [].

(** ** Effects *)

Inductive exn := IndexError | TypeError | UnicodeDecodeError.

(** What the script does to the outside: a line printed on its standard
    output, a child process launched through the shell and waited for. *)
Inductive event :=
| Print (line : str)
| Popen (cmd : str).

(** What [proc.communicate()] leaves behind. *)
Record ExecResult := mkExec {
  returncode : Z;
  stdout : bytes;
  stderr : bytes
}.

(** The outside world: what the [n]-th child process (counted from 0), run
    with command line [cmd], does. *)
Definition shell := nat -> str -> ExecResult.

Inductive res (A : Type) :=
| Val (a : A)
| Exit (code : Z)          (* sys.exit(code) *)
| Raise (e : exn).         (* an exception nothing catches *)

Arguments Val {A} a.
Arguments Exit {A} code.
Arguments Raise {A} e.

(** The status the interpreter ends with: 0 at the end of the script, the
    argument of [sys.exit], 1 after an uncaught exception. *)
Definition exit_status {A} (r : res A) : Z :=
  match r with
  | Val _ => 0
  | Exit c => c
  | Raise _ => 1
  end.

Definition M (A : Type) : Type := shell -> list event -> res A * list event.

Definition ret {A} (a : A) : M A := fun _ tr => (Val a, tr).

Definition bind {A B} (m : M A) (f : A -> M B) : M B :=
  fun sh tr =>
    match m sh tr with
    | (Val a, tr') => f a sh tr'
    | (Exit c, tr') => (Exit c, tr')
    | (Raise e, tr') => (Raise e, tr')
    end.

Notation "x <- m ;; k" := (bind m (fun x => k))
  (at level 61, m at next level, right associativity).
Notation "m ;; k" := (bind m (fun _ => k))
  (at level 61, right associativity).

Definition raise {A} (e : exn) : M A := fun _ tr => (Raise e, tr).

Definition sys_exit {A} (c : Z) : M A := fun _ tr => (Exit c, tr).

Definition print (s : str) : M unit := fun _ tr => (Val tt, tr ++ [Print s]).

Definition popens (tr : list event) : list str :=
  flat_map (fun e => match e with Popen c => [c] | Print _ => [] end) tr.

(** [subprocess.Popen(cmd, shell=True, ...)] followed by [communicate()]:
    the call returns when the child has exited.  The model covers the runs
    in which the system starts the shell; a call of [Popen] that itself
    fails with [OSError] (a command line longer than the system allows) is
    outside it, and so is a [print] that the encoding of the standard
    output refuses. *)
Definition popen (cmd : str) : M ExecResult :=
  fun sh tr => (Val (sh (List.length (popens tr)) cmd), tr ++ [Popen cmd]).

Definition lift (e : exn) {A} (o : option A) : M A :=
  match o with
  | Some a => ret a
  | None => raise e
  end.

(** [template % args]. *)
Definition fmt (t : str) (args : list pyval) : M str :=
  lift TypeError (format t args).

(** [b.decode("utf-8")]. *)
Definition decode (b : bytes) : M str :=
  lift UnicodeDecodeError (utf8_decode b).

(** [l[0]]. *)
Definition item0 {A} (l : list A) : M A :=
  lift IndexError (nth_error l 0).

(** ** The script *)

(** The four triple-quoted templates, one [lit] per source line; a
    backslash at the end of a line joins it to the next. *)
Definition submit_template : str :=
  nl
  ++ lit "docker run "
  ++ lit "-e CLIENT_ACCESS_TOKEN=%s "
  ++ lit "-e CLIENT_STUDY_ID=%s "
  ++ lit "-e CLIENT_SERVER_URL=%s "
  ++ lit "--network=" ++ dq ++ lit "host" ++ dq ++ lit " "
  ++ lit "--mount type=bind,source=%s,target=/output "
  ++ lit "ghcr.io/overture-stack/song-client "
  ++ lit "sing submit -f /output/%s" ++ nl.

Definition manifest_template : str :=
  nl
  ++ lit "docker run "
  ++ lit "-e CLIENT_ACCESS_TOKEN=%s "
  ++ lit "-e CLIENT_STUDY_ID=%s "
  ++ lit "-e CLIENT_SERVER_URL=%s "
  ++ lit "--network=" ++ dq ++ lit "host" ++ dq ++ lit " "
  ++ lit "--mount type=bind,source=%s,target=/output "
  ++ lit "ghcr.io/overture-stack/song-client "
  ++ lit "sing manifest -a %s -f /output/manifest.txt -d /output/" ++ nl.

Definition upload_template : str :=
  nl
  ++ lit "docker run "
  ++ lit "-e ACCESSTOKEN=%s "
  ++ lit "-e STORAGE_URL=%s "
  ++ lit "-e METADATA_URL=%s "
  ++ lit "--network=" ++ dq ++ lit "host" ++ dq ++ lit " "
  ++ lit "--mount type=bind,source=" ++ dq ++ lit "%s" ++ dq
  ++ lit ",target=/output "
  ++ lit "ghcr.io/overture-stack/score "
  ++ lit "score-client upload --manifest /output/manifest.txt" ++ nl.

Definition publish_template : str :=
  nl
  ++ lit "docker run "
  ++ lit "-e CLIENT_ACCESS_TOKEN=%s "
  ++ lit "-e CLIENT_STUDY_ID=%s "
  ++ lit "-e CLIENT_SERVER_URL=%s "
  ++ lit "--network=" ++ dq ++ lit "host" ++ dq ++ lit " "
  ++ lit "--mount type=bind,source=%s,target=/output "
  ++ lit "ghcr.io/overture-stack/song-client "
  ++ lit "sing publish -a %s" ++ nl.

(** Lines 35-45, 69-79, 100-110 and 130-140. *)
Definition submit_cmd (args : Namespace) : option str :=
  format submit_template
         [args token; args studyId; args song_url; args directory; args json].

Definition manifest_cmd (args : Namespace) (analysisId : str) : option str :=
  format manifest_template
         [args token; args studyId; args song_url; args directory;
          PStr analysisId].

Definition upload_cmd (args : Namespace) : option str :=
  format upload_template
         [args token; args score_url; args song_url; args directory].

Definition publish_cmd (args : Namespace) (analysisId : str) : option str :=
  format publish_template
         [args token; args studyId; args song_url; args directory;
          PStr analysisId].

(** The failure branch, the same four lines after each step
    (58-62, 92-96, 122-126, 152-156). *)
Definition report_failure {A} (proc : ExecResult) : M A :=
  line <- fmt (lit "ERRORCODE : %s ")
              [PStr (py_str (PInt (returncode proc)))] ;;
  print line ;;
  out <- decode (stdout proc) ;;
  line <- fmt (lit "STDOUT : %s ") [PStr (strip out)] ;;
  print line ;;
  err <- decode (stderr proc) ;;
  line <- fmt (lit "STDERR : %s ") [PStr (strip err)] ;;
  print line ;;
  sys_exit 1.

(** Line 65: the first match of the pattern in the decoded, stripped
    output of step 1. *)
Definition analysisId (out : bytes) : M str :=
  s <- decode out ;;
  item0 (findall analysisId_re (strip s)).

(** Step 1, lines 35-66: the analysis identifier is bound in the success
    branch only; the failure branch leaves the script. *)
Definition submit_step (args : Namespace) : M str :=
  cmd <- lift TypeError (submit_cmd args) ;;
  line <- fmt (lit "Running %s :") [PStr cmd] ;;
  print line ;;
  proc <- popen cmd ;;
  if negb (returncode proc =? 0)%Z
  then report_failure proc
  else
    print (lit "SUCCESS") ;;
    id <- analysisId (stdout proc) ;;
    line <- fmt (lit "analysisId generated : %s") [PStr id] ;;
    print line ;;
    ret id.

(** Step 2, lines 69-98. *)
Definition manifest_step (args : Namespace) (id : str) : M unit :=
  cmd <- lift TypeError (manifest_cmd args id) ;;
  line <- fmt (lit "Running : %s ") [PStr cmd] ;;
  print line ;;
  proc <- popen cmd ;;
  if negb (returncode proc =? 0)%Z
  then report_failure proc
  else print (lit "SUCCESS").

(** Step 3, lines 100-128. *)
Definition upload_step (args : Namespace) : M unit :=
  cmd <- lift TypeError (upload_cmd args) ;;
  line <- fmt (lit "Running : %s") [PStr cmd] ;;
  print line ;;
  proc <- popen cmd ;;
  if negb (returncode proc =? 0)%Z
  then report_failure proc
  else print (lit "SUCCESS").

(** Step 4, lines 130-158. *)
Definition publish_step (args : Namespace) (id : str) : M unit :=
  cmd <- lift TypeError (publish_cmd args id) ;;
  line <- fmt (lit "Running : %s") [PStr cmd] ;;
  print line ;;
  proc <- popen cmd ;;
  if negb (returncode proc =? 0)%Z
  then report_failure proc
  else print (lit "SUCCESS").

(** Lines 28-158, after [parse_args] has returned [args]. *)
Definition workflow (args : Namespace) : M unit :=
  id <- submit_step args ;;
  manifest_step args id ;;
  upload_step args ;;
  publish_step args id.

(** The whole script on [sys.argv[1:]]: the final result and the trace of
    what the script itself printed and launched (the usage or help text
    that argparse writes when it exits is not part of the trace).  [None]
    only where [parse_args] is not modelled. *)
Definition script (argv : list str) (sh : shell)
  : option (res unit * list event) :=
  match parse_args argv with
  | Parsed args => Some (workflow args sh [])
  | ParserExit status => Some (Exit status, [])
  | Unmodelled => None
  end.

(** ** Vocabulary of the properties *)

(** [u] is a substring of [t]; [u] is the substring of [t] at offset [i]. *)
Definition occurs (u t : str) : Prop :=
  exists pre post, t = pre ++ u ++ post.

Definition occurs_at (u t : str) (i : nat) : Prop :=
  exists pre post, t = pre ++ u ++ post /\ List.length pre = i.

(** The lowercase letters and digits; the lowercase hexadecimal digits. *)
Definition is_alnum (c : N) : bool := between 97 122 c || between 48 57 c.

Definition is_hex (c : N) : bool := between 97 102 c || between 48 57 c.

Definition group (cls : N -> bool) (n : nat) (g : str) : Prop :=
  List.length g = n /\ Forall (fun c => cls c = true) g.

(** Five groups of 8, 4, 4, 4 and 12 characters of [cls], joined by dashes. *)
Definition uuid_shaped (cls : N -> bool) (u : str) : Prop :=
  exists g1 g2 g3 g4 g5,
    u = g1 ++ dash :: g2 ++ dash :: g3 ++ dash :: g4 ++ dash :: g5
    /\ group cls 8 g1 /\ group cls 4 g2 /\ group cls 4 g3
    /\ group cls 4 g4 /\ group cls 12 g5.

(** [u] is the leftmost substring of [t] of that shape. *)
Definition first_shaped (cls : N -> bool) (t u : str) : Prop :=
  uuid_shaped cls u
  /\ exists i, occurs_at u t i
       /\ forall j v, (j < i)%nat -> uuid_shaped cls v -> ~ occurs_at v t j.

(** The commands with the substitutions carried out. *)
Definition registrar_text (args : Namespace) (subcommand : str) : str :=
  nl ++ lit "docker run -e CLIENT_ACCESS_TOKEN=" ++ py_str (args token)
  ++ lit " -e CLIENT_STUDY_ID=" ++ py_str (args studyId)
  ++ lit " -e CLIENT_SERVER_URL=" ++ py_str (args song_url)
  ++ lit " --network=" ++ dq ++ lit "host" ++ dq
  ++ lit " --mount type=bind,source=" ++ py_str (args directory)
  ++ lit ",target=/output ghcr.io/overture-stack/song-client " ++ subcommand.

Definition submit_text (args : Namespace) : str :=
  registrar_text args
    (lit "sing submit -f /output/" ++ py_str (args json) ++ nl).

Definition manifest_text (args : Namespace) (id : str) : str :=
  registrar_text args
    (lit "sing manifest -a " ++ id
     ++ lit " -f /output/manifest.txt -d /output/" ++ nl).

Definition upload_text (args : Namespace) : str :=
  nl ++ lit "docker run -e ACCESSTOKEN=" ++ py_str (args token)
  ++ lit " -e STORAGE_URL=" ++ py_str (args score_url)
  ++ lit " -e METADATA_URL=" ++ py_str (args song_url)
  ++ lit " --network=" ++ dq ++ lit "host" ++ dq
  ++ lit " --mount type=bind,source=" ++ dq ++ py_str (args directory) ++ dq
  ++ lit ",target=/output ghcr.io/overture-stack/score "
  ++ lit "score-client upload --manifest /output/manifest.txt" ++ nl.

Definition publish_text (args : Namespace) (id : str) : str :=
  registrar_text args (lit "sing publish -a " ++ id ++ nl).

(** The lines the script prints. *)
Definition errorcode_line (p : ExecResult) : str :=
  lit "ERRORCODE : " ++ py_str (PInt (returncode p)) ++ lit " ".

Definition stdout_line (o : str) : str :=
  lit "STDOUT : " ++ strip o ++ lit " ".

Definition stderr_line (e : str) : str :=
  lit "STDERR : " ++ strip e ++ lit " ".

Definition success : str := lit "SUCCESS".

Definition running_submit (c : str) : str := lit "Running " ++ c ++ lit " :".

Definition running_manifest (c : str) : str :=
  lit "Running : " ++ c ++ lit " ".

Definition running (c : str) : str := lit "Running : " ++ c.

Definition generated (id : str) : str := lit "analysisId generated : " ++ id.

(** The texts a pattern matches: one group per atom, of the atom's count. *)
Fixpoint matches (re : regex) (m : str) : Prop :=
  match re with
  | [] => m = []
  | (a, n) :: re' =>
    exists g m', m = g ++ m' /\ group (atom_match a) n g /\ matches re' m'
  end.

Definition is_space (c : N) : Prop := isspace c = true.

(** How the failure branch ends, and what it adds to the trace. *)
Definition failure_result {A} (p : ExecResult) : res A :=
  match utf8_decode (stdout p), utf8_decode (stderr p) with
  | Some _, Some _ => Exit 1
  | _, _ => Raise UnicodeDecodeError
  end.

Definition failure_lines (p : ExecResult) : list event :=
  match utf8_decode (stdout p) with
  | None => [Print (errorcode_line p)]
  | Some o =>
    match utf8_decode (stderr p) with
    | None => [Print (errorcode_line p); Print (stdout_line o)]
    | Some e =>
      [Print (errorcode_line p); Print (stdout_line o);
       Print (stderr_line e)]
    end
  end.

(** A world in which every child process gives the same result. *)
Definition always (r : ExecResult) : shell := fun _ _ => r.

(** A world given by the results of the successive child processes. *)
Definition replay (rs : list ExecResult) : shell :=
  fun n _ => nth n rs (mkExec 0 [] []).

Definition demo_args : Namespace :=
  fun d => match d with
           | json => PStr (lit "exampleMetadata.json")
           | directory => PStr (lit "/data")
           | _ => default d
           end.

Definition demo_id : string := "ab12cd34-ef56-7890-ab12-cd34ef567890".

Definition ok (out : string) : ExecResult := mkExec 0 (blit out) [].

(** A configuration whose access token is the text of [demo_id]. *)
Definition token_args : Namespace :=
  fun d => match d with
           | token => PStr (lit demo_id)
           | _ => demo_args d
           end.

(** Step 1 succeeds and prints the identifier, step 2 exits with status 3. *)
Definition manifest_fails : shell :=
  replay [ok demo_id; mkExec 3 (blit "out") (blit "err")].

(** Every child process of the trace is launched right after a line that
    shows its command, and the command shows [tok]; [prev] is the line
    printed last, if the last event was a print. *)
Fixpoint announced (tok : str) (prev : option str) (tr : list event) : Prop :=
  match tr with
  | [] => True
  | Print l :: r => announced tok (Some l) r
  | Popen c :: r =>
    match prev with
    | Some l => occurs c l /\ occurs tok c
    | None => False
    end /\ announced tok None r
  end.

(** The characters a UUID-shaped text is made of. *)
Definition uuid_char (c : N) : bool := is_alnum c || (c =? dash).

(** A text cut into pieces, each followed by a delimiter, and a last piece. *)
Fixpoint pieces_text (ps : list (str * N)) (last : str) : str :=
  match ps with
  | [] => last
  | (p, d) :: r => p ++ d :: pieces_text r last
  end.

(** The configuration values substituted into the commands of steps 1
    and 3. *)
Definition submit_values (args : Namespace) : list str :=
  map py_str [args token; args studyId; args song_url; args directory;
              args json].

Definition upload_values (args : Namespace) : list str :=
  map py_str [args token; args score_url; args song_url; args directory].

(** [docker run -e NAME=value]: an environment variable of the container. *)
Definition env_var (name : string) (value : str) : str :=
  lit "-e " ++ lit name ++ lit "=" ++ value ++ lit " ".

(** [docker run --mount type=bind,...]: [source] of the host at [/output]. *)
Definition bind_mount (source : str) : str :=
  lit "--mount type=bind,source=" ++ source ++ lit ",target=/output ".

Definition ends_with (t u : str) : Prop := exists pre, t = pre ++ u.

(** Every child process of the trace that exits with status 0 is followed
    at once by the line SUCCESS; [n] is the number of children launched
    before [tr]. *)
Fixpoint acknowledged (sh : shell) (n : nat) (tr : list event) : Prop :=
  match tr with
  | [] => True
  | Print _ :: r => acknowledged sh n r
  | Popen c :: r =>
    (returncode (sh n c) = 0%Z -> exists r', r = Print success :: r')
    /\ acknowledged sh (S n) r
  end.

(** The part of a registrar command that does not depend on the subcommand. *)
Definition registrar_head (args : Namespace) : str :=
  registrar_text args [].

(** Step 1 exits with status 0 and writes a byte that is not UTF-8 before
    the identifier. *)
Definition binary_then_id : shell :=
  always (mkExec 0 (xff :: blit demo_id) []).

(** Steps 1 and 2 succeed, step 3 exits with status 1 and writes bytes that
    are not UTF-8 on its standard error. *)
Definition upload_fails_binary : shell :=
  replay [ok demo_id; ok "done"; mkExec 1 (blit " partial ") [xc3; x28]].

(** Two worlds that differ only in what the successful children write,
    the standard output of the first child apart. *)
Definition quiet_world : shell :=
  replay [ok demo_id; ok "a"; ok "b"; ok "c"].

Definition chatty_world : shell :=
  replay [mkExec 0 (blit demo_id) (blit "warning");
          mkExec 0 (blit "manifest written") (blit "x");
          mkExec 0 [xff] [xfe];
          mkExec 0 (blit demo_id) []].





(** * Properties *)

(** ** The commands in closed form *)

Lemma submit_cmd_text args : submit_cmd args = Some (submit_text args).
Proof. reflexivity. Qed.

Lemma manifest_cmd_text args id :
  manifest_cmd args id = Some (manifest_text args id).
Proof. reflexivity. Qed.

Lemma upload_cmd_text args : upload_cmd args = Some (upload_text args).
Proof. reflexivity. Qed.

Lemma publish_cmd_text args id :
  publish_cmd args id = Some (publish_text args id).
Proof. reflexivity. Qed.

(** ** Running the steps *)

Lemma popens_app tr1 tr2 : popens (tr1 ++ tr2) = popens tr1 ++ popens tr2.
Proof. apply flat_map_app. Qed.

Lemma popens_print tr l : popens (tr ++ [Print l]) = popens tr.
Proof. rewrite popens_app. simpl. apply app_nil_r. Qed.

Lemma report_failure_run A p sh tr :
  @report_failure A p sh tr = (failure_result p, tr ++ failure_lines p).
Proof.
  unfold report_failure, failure_result, failure_lines, bind, decode, fmt,
    lift, print, sys_exit, ret, raise.
  change (format (lit "ERRORCODE : %s ")
                 [PStr (py_str (PInt (returncode p)))])
    with (Some (errorcode_line p)).
  cbv iota beta.
  destruct (utf8_decode (stdout p)) as [o|]; [|reflexivity].
  change (format (lit "STDOUT : %s ") [PStr (strip o)])
    with (Some (stdout_line o)).
  cbv iota beta.
  destruct (utf8_decode (stderr p)) as [e|].
  - change (format (lit "STDERR : %s ") [PStr (strip e)])
      with (Some (stderr_line e)).
    cbv iota beta. now rewrite <- !app_assoc.
  - now rewrite <- !app_assoc.
Qed.

Lemma bind_run A B (m : M A) (f : A -> M B) sh tr :
  bind m f sh tr =
  match m sh tr with
  | (Val a, tr') => f a sh tr'
  | (Exit c, tr') => (Exit c, tr')
  | (Raise e, tr') => (Raise e, tr')
  end.
Proof. reflexivity. Qed.

Lemma fmt_running_submit c sh tr :
  fmt (lit "Running %s :") [PStr c] sh tr
  = (Val (lit "Running " ++ c ++ lit " :"), tr).
Proof. reflexivity. Qed.

Lemma fmt_running_manifest c sh tr :
  fmt (lit "Running : %s ") [PStr c] sh tr
  = (Val (lit "Running : " ++ c ++ lit " "), tr).
Proof. reflexivity. Qed.

Lemma fmt_running c sh tr :
  fmt (lit "Running : %s") [PStr c] sh tr = (Val (lit "Running : " ++ c), tr).
Proof.
  unfold fmt. replace (format _ _) with (Some (lit "Running : " ++ c)).
  - reflexivity.
  - simpl. now rewrite app_nil_r.
Qed.

Lemma fmt_generated id sh tr :
  fmt (lit "analysisId generated : %s") [PStr id] sh tr
  = (Val (lit "analysisId generated : " ++ id), tr).
Proof.
  unfold fmt.
  replace (format _ _) with (Some (lit "analysisId generated : " ++ id)).
  - reflexivity.
  - simpl. now rewrite app_nil_r.
Qed.

Lemma print_run l sh tr : print l sh tr = (Val tt, tr ++ [Print l]).
Proof. reflexivity. Qed.

Lemma popen_run c sh tr :
  popen c sh tr = (Val (sh (List.length (popens tr)) c), tr ++ [Popen c]).
Proof. reflexivity. Qed.

Lemma analysisId_run out sh tr :
  analysisId out sh tr =
  match utf8_decode out with
  | None => (Raise UnicodeDecodeError, tr)
  | Some s =>
    match findall analysisId_re (strip s) with
    | [] => (Raise IndexError, tr)
    | id :: _ => (Val id, tr)
    end
  end.
Proof.
  unfold analysisId, decode, item0. rewrite bind_run.
  destruct (utf8_decode out) as [s|]; [|reflexivity].
  cbv beta iota delta [lift ret].
  now destruct (findall analysisId_re (strip s)).
Qed.

Ltac step_run :=
  repeat (rewrite ?bind_run, ?fmt_running_submit, ?fmt_running_manifest,
          ?fmt_running, ?fmt_generated, ?print_run, ?popen_run,
          ?popens_print; cbv beta iota).

Lemma submit_step_run args sh tr :
  submit_step args sh tr =
  let c := submit_text args in
  let p := sh (List.length (popens tr)) c in
  let tr1 := tr ++ [Print (running_submit c); Popen c] in
  if (returncode p =? 0)%Z then
    match utf8_decode (stdout p) with
    | None => (Raise UnicodeDecodeError, tr1 ++ [Print success])
    | Some s =>
      match findall analysisId_re (strip s) with
      | [] => (Raise IndexError, tr1 ++ [Print success])
      | id :: _ => (Val id, tr1 ++ [Print success; Print (generated id)])
      end
    end
  else (failure_result p, tr1 ++ failure_lines p).
Proof.
  unfold submit_step. rewrite submit_cmd_text. cbv zeta.
  rewrite bind_run. cbv beta iota delta [lift ret].
  step_run.
  destruct (returncode _ =? 0)%Z; cbv beta iota delta [negb].
  - step_run. rewrite analysisId_run.
    destruct (utf8_decode _) as [s|].
    + destruct (findall analysisId_re (strip s)) as [|id ?].
      * now rewrite <- !app_assoc.
      * step_run. unfold ret. now rewrite <- !app_assoc.
    + now rewrite <- !app_assoc.
  - rewrite report_failure_run. now rewrite <- !app_assoc.
Qed.

Lemma manifest_step_run args id sh tr :
  manifest_step args id sh tr =
  let c := manifest_text args id in
  let p := sh (List.length (popens tr)) c in
  let tr1 := tr ++ [Print (running_manifest c); Popen c] in
  if (returncode p =? 0)%Z then (Val tt, tr1 ++ [Print success])
  else (failure_result p, tr1 ++ failure_lines p).
Proof.
  unfold manifest_step. rewrite manifest_cmd_text. cbv zeta.
  rewrite bind_run. cbv beta iota delta [lift ret].
  step_run.
  destruct (returncode _ =? 0)%Z; cbv beta iota delta [negb].
  - step_run. now rewrite <- !app_assoc.
  - rewrite report_failure_run. now rewrite <- !app_assoc.
Qed.

Lemma upload_step_run args sh tr :
  upload_step args sh tr =
  let c := upload_text args in
  let p := sh (List.length (popens tr)) c in
  let tr1 := tr ++ [Print (running c); Popen c] in
  if (returncode p =? 0)%Z then (Val tt, tr1 ++ [Print success])
  else (failure_result p, tr1 ++ failure_lines p).
Proof.
  unfold upload_step. rewrite upload_cmd_text. cbv zeta.
  rewrite bind_run. cbv beta iota delta [lift ret].
  step_run.
  destruct (returncode _ =? 0)%Z; cbv beta iota delta [negb].
  - step_run. now rewrite <- !app_assoc.
  - rewrite report_failure_run. now rewrite <- !app_assoc.
Qed.

Lemma publish_step_run args id sh tr :
  publish_step args id sh tr =
  let c := publish_text args id in
  let p := sh (List.length (popens tr)) c in
  let tr1 := tr ++ [Print (running c); Popen c] in
  if (returncode p =? 0)%Z then (Val tt, tr1 ++ [Print success])
  else (failure_result p, tr1 ++ failure_lines p).
Proof.
  unfold publish_step. rewrite publish_cmd_text. cbv zeta.
  rewrite bind_run. cbv beta iota delta [lift ret].
  step_run.
  destruct (returncode _ =? 0)%Z; cbv beta iota delta [negb].
  - step_run. now rewrite <- !app_assoc.
  - rewrite report_failure_run. now rewrite <- !app_assoc.
Qed.

(** ** The pattern and its matches *)

Lemma match_rep_sound a n s m r :
  match_rep a n s = Some (m, r) -> s = m ++ r /\ group (atom_match a) n m.
Proof.
  unfold group. revert s m r. induction n as [|n IH]; intros s m r; simpl.
  - intros [= <- <-]. auto.
  - destruct s as [|c s]; [discriminate|].
    destruct (atom_match a c) eqn:Hc; [|discriminate].
    destruct (match_rep a n s) as [[m1 r1]|] eqn:Hm; [|discriminate].
    intros [= <- <-]. destruct (IH _ _ _ Hm) as (-> & Hl & Hf).
    simpl. auto.
Qed.

Lemma match_rep_complete a n m r :
  group (atom_match a) n m -> match_rep a n (m ++ r) = Some (m, r).
Proof.
  unfold group. revert n. induction m as [|c m IH]; intros n [Hl Hf].
  - now subst n.
  - subst n. inversion Hf as [|? ? Hc Hf']; subst. simpl.
    rewrite Hc, IH; auto.
Qed.

Lemma match_rep_spec a n s m r :
  match_rep a n s = Some (m, r) <-> s = m ++ r /\ group (atom_match a) n m.
Proof.
  split; [apply match_rep_sound|].
  intros [-> H]. now apply match_rep_complete.
Qed.

Lemma match_here_spec re s m r :
  match_here re s = Some (m, r) <-> s = m ++ r /\ matches re m.
Proof.
  revert s m r. induction re as [|[a n] re IH]; intros s m r; simpl.
  - split.
    + intros [= <- <-]. auto.
    + intros (-> & ->). reflexivity.
  - split.
    + destruct (match_rep a n s) as [[g r1]|] eqn:Hg; [|discriminate].
      destruct (match_here re r1) as [[m' r']|] eqn:Hm; [|discriminate].
      intros [= <- <-]. apply match_rep_spec in Hg. apply IH in Hm.
      destruct Hg as (-> & Hg). destruct Hm as (-> & Hm).
      split; [now rewrite app_assoc|]. now exists g, m'.
    + intros (-> & g & m' & -> & Hg & Hm).
      assert (E : match_rep a n (g ++ m' ++ r) = Some (g, m' ++ r))
        by (apply match_rep_spec; auto).
      rewrite <- app_assoc, E.
      assert (E' : match_here re (m' ++ r) = Some (m', r))
        by (apply IH; auto).
      now rewrite E'.
Qed.

Lemma group_dash d : group (atom_match (Chr dash)) 1 d <-> d = [dash].
Proof.
  unfold group. split.
  - intros [Hl Hf]. destruct d as [|x [|? ?]]; try discriminate.
    inversion Hf as [|? ? Hx _]; subst. simpl in Hx.
    apply N.eqb_eq in Hx. now subst.
  - intros ->. split; [reflexivity|]. constructor; [reflexivity|constructor].
Qed.

Lemma matches_uuid a u :
  matches (uuid_pattern a) u <-> uuid_shaped (atom_match a) u.
Proof.
  unfold uuid_pattern, uuid_shaped. simpl. split.
  - intros (g1 & m1 & -> & H1 & d1 & m2 & -> & D1 & g2 & m3 & -> & H2
            & d2 & m4 & -> & D2 & g3 & m5 & -> & H3 & d3 & m6 & -> & D3
            & g4 & m7 & -> & H4 & d4 & m8 & -> & D4 & g5 & m9 & -> & H5 & ->).
    apply group_dash in D1, D2, D3, D4. subst.
    exists g1, g2, g3, g4, g5. rewrite app_nil_r. simpl. auto 10.
  - intros (g1 & g2 & g3 & g4 & g5 & -> & H1 & H2 & H3 & H4 & H5).
    exists g1, (dash :: g2 ++ dash :: g3 ++ dash :: g4 ++ dash :: g5).
    split; [reflexivity|]. split; [assumption|].
    exists [dash], (g2 ++ dash :: g3 ++ dash :: g4 ++ dash :: g5).
    split; [reflexivity|]. split; [now apply group_dash|].
    exists g2, (dash :: g3 ++ dash :: g4 ++ dash :: g5).
    split; [reflexivity|]. split; [assumption|].
    exists [dash], (g3 ++ dash :: g4 ++ dash :: g5).
    split; [reflexivity|]. split; [now apply group_dash|].
    exists g3, (dash :: g4 ++ dash :: g5).
    split; [reflexivity|]. split; [assumption|].
    exists [dash], (g4 ++ dash :: g5).
    split; [reflexivity|]. split; [now apply group_dash|].
    exists g4, (dash :: g5).
    split; [reflexivity|]. split; [assumption|].
    exists [dash], g5.
    split; [reflexivity|]. split; [now apply group_dash|].
    exists g5, []. rewrite app_nil_r. auto.
Qed.

Lemma group_ext cls cls' n g :
  (forall c, cls c = cls' c) -> group cls n g -> group cls' n g.
Proof.
  intros E [Hl Hf]. split; [assumption|].
  eapply Forall_impl; [|exact Hf]. intros c Hc. now rewrite <- E.
Qed.

Lemma uuid_shaped_ext cls cls' u :
  (forall c, cls c = cls' c) -> uuid_shaped cls u -> uuid_shaped cls' u.
Proof.
  intros E (g1 & g2 & g3 & g4 & g5 & -> & H1 & H2 & H3 & H4 & H5).
  exists g1, g2, g3, g4, g5.
  repeat split; try reflexivity; eapply group_ext; eauto; apply H1.
Qed.

Lemma atom_lower_alnum c : atom_match lower_alnum c = is_alnum c.
Proof. unfold is_alnum. simpl. now rewrite orb_false_r. Qed.

Lemma atom_lower_hex c : atom_match lower_hex c = is_hex c.
Proof. unfold is_hex. simpl. now rewrite orb_false_r. Qed.

(** The pattern of line 65 matches exactly the texts of five groups of
    lowercase letters and digits. *)
Lemma matches_analysisId_re u :
  matches analysisId_re u <-> uuid_shaped is_alnum u.
Proof.
  unfold analysisId_re. rewrite matches_uuid. split.
  - apply uuid_shaped_ext, atom_lower_alnum.
  - apply uuid_shaped_ext. intros c. symmetry. apply atom_lower_alnum.
Qed.

Lemma uuid_shaped_length cls u : uuid_shaped cls u -> List.length u = 36%nat.
Proof.
  intros (g1 & g2 & g3 & g4 & g5 & -> & [L1 _] & [L2 _] & [L3 _] & [L4 _]
          & [L5 _]).
  repeat (rewrite ?length_app; simpl). lia.
Qed.

Lemma uuid_shaped_chars cls u :
  uuid_shaped cls u -> Forall (fun c => cls c = true \/ c = dash) u.
Proof.
  intros (g1 & g2 & g3 & g4 & g5 & -> & [_ F1] & [_ F2] & [_ F3] & [_ F4]
          & [_ F5]).
  assert (W : forall g, Forall (fun c => cls c = true) g ->
                        Forall (fun c => cls c = true \/ c = dash) g)
    by (intros g Hg; eapply Forall_impl; [|exact Hg]; simpl; auto).
  repeat (apply Forall_app; split; [now apply W|]; constructor; [now right|]).
  now apply W.
Qed.

(** ** [findall] returns the leftmost match first *)

Section Findall.

Variable re : regex.
Hypothesis re_nil : match_here re [] = None.

Lemma matches_nonempty v : matches re v -> v <> [].
Proof.
  intros Hv ->.
  assert (E : match_here re ([] ++ []) = Some ([], @nil N))
    by (apply match_here_spec; auto).
  simpl in E. congruence.
Qed.

Lemma occurs_at_head v c r :
  matches re v -> occurs_at v (c :: r) 0 ->
  exists post, match_here re (c :: r) = Some (v, post).
Proof.
  intros Hv (pre & post & E & Hl). destruct pre; [|discriminate].
  simpl in E. exists post. apply match_here_spec. auto.
Qed.

Lemma occurs_at_tail v c r j :
  occurs_at v (c :: r) (S j) -> occurs_at v r j.
Proof.
  intros (pre & post & E & Hl). destruct pre as [|c' pre]; [discriminate|].
  simpl in E. injection E as _ E. injection Hl as Hl. now exists pre, post.
Qed.

Lemma findall_first t :
  match findall re t with
  | u :: _ =>
    matches re u
    /\ exists i, occurs_at u t i
         /\ forall j v, (j < i)%nat -> matches re v -> ~ occurs_at v t j
  | [] => forall v i, matches re v -> ~ occurs_at v t i
  end.
Proof.
  unfold findall. induction t as [|c r IH].
  - simpl. rewrite re_nil. intros v i Hv (pre & post & E & _).
    apply (matches_nonempty v Hv).
    destruct pre; [|discriminate]. destruct v; [reflexivity|discriminate].
  - simpl. destruct (match_here re (c :: r)) as [[m r']|] eqn:Hm.
    + apply match_here_spec in Hm. destruct Hm as [E Hm].
      split; [assumption|]. exists 0%nat. split.
      * now exists [], r'.
      * intros j v Hj. lia.
    + destruct (findall_from re 0 r) as [|u l].
      * intros v [|i] Hv Ho.
        -- destruct (occurs_at_head v c r Hv Ho). congruence.
        -- apply occurs_at_tail in Ho. now apply (IH v i).
      * destruct IH as (Hu & i & (pre & post & E & Hl) & Hmin).
        split; [assumption|]. exists (S i). split.
        -- exists (c :: pre), post. simpl. split; congruence.
        -- intros [|j] v Hj Hv Ho.
           ++ destruct (occurs_at_head v c r Hv Ho). congruence.
           ++ apply occurs_at_tail in Ho. apply (Hmin j v); auto. lia.
Qed.

End Findall.

(** ** [strip] does not change what [findall] sees *)

Lemma lstrip_split s :
  exists w, s = w ++ lstrip s /\ Forall is_space w.
Proof.
  induction s as [|c s (w & E & Hw)].
  - now exists [].
  - simpl. destruct (isspace c) eqn:Hc.
    + exists (c :: w). simpl. split; [congruence|]. now constructor.
    + now exists [].
Qed.

Lemma rstrip_split s :
  exists w, s = rstrip s ++ w /\ Forall is_space w.
Proof.
  unfold rstrip. destruct (lstrip_split (rev s)) as (w & E & Hw).
  exists (rev w). split.
  - rewrite <- rev_app_distr, <- E. now rewrite rev_involutive.
  - now apply Forall_rev.
Qed.


Ltac bool_to_prop :=
  unfold isspace, is_alnum, is_hex, between in *;
  repeat match goal with
         | H : _ |- _ =>
           first [ rewrite orb_true_iff in H | rewrite andb_true_iff in H
                 | rewrite orb_false_iff in H | rewrite andb_false_iff in H
                 | rewrite N.leb_le in H | rewrite N.leb_gt in H
                 | rewrite N.eqb_eq in H | rewrite N.eqb_neq in H ]
         end.

Lemma space_not_alnum c : isspace c = true -> is_alnum c = false.
Proof.
  intros H. destruct (is_alnum c) eqn:E; [|reflexivity].
  bool_to_prop. lia.
Qed.

Lemma space_not_dash c : isspace c = true -> (c =? dash) = false.
Proof.
  intros H. destruct (c =? dash) eqn:E; [|reflexivity].
  unfold dash in E. bool_to_prop. lia.
Qed.

Section FindallStrip.

Variable re : regex.
Hypothesis re_nil : match_here re [] = None.
Hypothesis re_head :
  forall c s, isspace c = true -> match_here re (c :: s) = None.
Hypothesis re_atoms :
  Forall (fun an => forall c, isspace c = true -> atom_match (fst an) c = false)
         re.

Lemma match_rep_app_none a n x w :
  (forall c, isspace c = true -> atom_match a c = false) ->
  Forall is_space w ->
  match_rep a n x = None -> match_rep a n (x ++ w) = None.
Proof.
  intros Ha Hw. revert x. induction n as [|n IH]; intros x; simpl.
  - discriminate.
  - destruct x as [|c x]; simpl.
    + intros _. destruct w as [|c w]; [reflexivity|].
      inversion Hw; subst. now rewrite Ha.
    + destruct (atom_match a c); [|reflexivity].
      destruct (match_rep a n x) as [[m r]|] eqn:E; [discriminate|].
      intros _. now rewrite IH.
Qed.

Lemma match_here_app_some r0 x w m r :
  match_here r0 x = Some (m, r) -> match_here r0 (x ++ w) = Some (m, r ++ w).
Proof.
  intros H. apply match_here_spec in H. destruct H as [-> H].
  apply match_here_spec. split; [now rewrite app_assoc|assumption].
Qed.

Lemma match_here_app_none r0 x w :
  Forall (fun an => forall c, isspace c = true -> atom_match (fst an) c = false)
         r0 ->
  Forall is_space w ->
  match_here r0 x = None -> match_here r0 (x ++ w) = None.
Proof.
  intros Hr Hw. revert x. induction r0 as [|[a n] r0 IH]; intros x; simpl.
  - discriminate.
  - inversion Hr as [|? ? Ha Hr']; subst. simpl in Ha.
    destruct (match_rep a n x) as [[g r1]|] eqn:Hg.
    + apply match_rep_sound in Hg. destruct Hg as [-> Hg].
      rewrite <- app_assoc, (match_rep_complete _ _ _ _ Hg).
      destruct (match_here r0 r1) as [[m' r']|] eqn:Hm; [discriminate|].
      intros _. now rewrite IH.
    + intros _. now rewrite match_rep_app_none.
Qed.

Lemma findall_from_spaces w k :
  Forall is_space w -> findall_from re k w = [].
Proof.
  intros Hw. revert k. induction Hw as [|c w Hc Hw IH]; intros k; simpl.
  - rewrite re_nil. now destruct k.
  - destruct k; [|apply IH]. now rewrite re_head.
Qed.

Lemma findall_from_app_spaces s w k :
  Forall is_space w -> findall_from re k (s ++ w) = findall_from re k s.
Proof.
  intros Hw. revert k. induction s as [|c s IH]; intros k.
  - simpl app. rewrite findall_from_spaces by assumption.
    simpl. rewrite re_nil. now destruct k.
  - simpl. destruct k; [|apply IH].
    destruct (match_here re (c :: s)) as [[m r]|] eqn:Hm.
    + change (c :: s ++ w) with ((c :: s) ++ w).
      rewrite (match_here_app_some _ _ w _ _ Hm). now rewrite IH.
    + change (c :: s ++ w) with ((c :: s) ++ w).
      rewrite match_here_app_none by assumption. apply IH.
Qed.

Lemma findall_lstrip s : findall re (lstrip s) = findall re s.
Proof.
  unfold findall. induction s as [|c s IH]; [reflexivity|].
  simpl. destruct (isspace c) eqn:Hc; [|reflexivity].
  now rewrite re_head.
Qed.

Lemma findall_strip s : findall re (strip s) = findall re s.
Proof.
  unfold strip. rewrite <- (findall_lstrip s).
  destruct (rstrip_split (lstrip s)) as (w & E & Hw).
  rewrite E at 2. unfold findall.
  now rewrite findall_from_app_spaces.
Qed.

End FindallStrip.

Lemma analysisId_re_nil : match_here analysisId_re [] = None.
Proof. reflexivity. Qed.

Lemma analysisId_re_head c s :
  isspace c = true -> match_here analysisId_re (c :: s) = None.
Proof.
  intros H. unfold analysisId_re, uuid_pattern.
  cbn [match_here match_rep]. rewrite atom_lower_alnum.
  now rewrite space_not_alnum.
Qed.

Lemma analysisId_re_atoms :
  Forall (fun an => forall c, isspace c = true -> atom_match (fst an) c = false)
         analysisId_re.
Proof.
  repeat constructor; intros c H; simpl fst;
    first [ rewrite atom_lower_alnum; now apply space_not_alnum
          | now apply space_not_dash ].
Qed.

(** The first match in the stripped text is the leftmost UUID-shaped
    substring of the text itself; there is no match exactly when the text
    has no such substring. *)
Lemma findall_analysisId t :
  match findall analysisId_re (strip t) with
  | u :: _ => first_shaped is_alnum t u
  | [] => forall v, uuid_shaped is_alnum v -> ~ occurs v t
  end.
Proof.
  rewrite (findall_strip _ analysisId_re_nil analysisId_re_head
                         analysisId_re_atoms).
  pose proof (findall_first _ analysisId_re_nil t) as H.
  destruct (findall analysisId_re t) as [|u l].
  - intros v Hv (pre & post & E).
    apply (H v (List.length pre)).
    + now apply matches_analysisId_re.
    + now exists pre, post.
  - destruct H as (Hu & i & Ho & Hmin).
    split; [now apply matches_analysisId_re|].
    exists i. split; [assumption|].
    intros j v Hj Hv. apply Hmin; [assumption|].
    now apply matches_analysisId_re.
Qed.

Lemma app_inj_length (A : Type) (a b x y : list A) :
  List.length a = List.length b -> a ++ x = b ++ y -> a = b /\ x = y.
Proof.
  revert b. induction a as [|h a IH]; intros [|h' b] Hl E; try discriminate.
  - auto.
  - simpl in E. injection E as -> E. injection Hl as Hl.
    destruct (IH b Hl E) as [-> ->]. auto.
Qed.

Lemma occurs_at_occurs u t i : occurs_at u t i -> occurs u t.
Proof. intros (pre & post & E & _). now exists pre, post. Qed.

Lemma occurs_occurs_at u t : occurs u t -> exists i, occurs_at u t i.
Proof. intros (pre & post & E). now exists (List.length pre), pre, post. Qed.

Lemma first_shaped_unique cls t u u' :
  first_shaped cls t u -> first_shaped cls t u' -> u = u'.
Proof.
  intros (Hu & i & Ho & Hmin) (Hu' & i' & Ho' & Hmin').
  assert (i = i') as <-.
  { destruct (Nat.lt_trichotomy i i') as [H|[H|H]]; [|assumption|].
    - now destruct (Hmin' i u H Hu).
    - now destruct (Hmin i' u' H Hu'). }
  destruct Ho as (pre & post & E & Hl), Ho' as (pre' & post' & E' & Hl').
  rewrite E in E'. apply app_inj_length in E'; [|congruence].
  destruct E' as [_ E']. apply app_inj_length in E'; [tauto|].
  apply uuid_shaped_length in Hu, Hu'. congruence.
Qed.

Lemma findall_of_first_shaped t u :
  first_shaped is_alnum t u ->
  exists l, findall analysisId_re (strip t) = u :: l.
Proof.
  intros H. pose proof (findall_analysisId t) as F.
  destruct (findall analysisId_re (strip t)) as [|u' l].
  - destruct H as (Hu & i & Ho & _).
    destruct (F u Hu). eapply occurs_at_occurs, Ho.
  - exists l. f_equal. eapply first_shaped_unique; eassumption.
Qed.

Lemma first_shaped_exists t v :
  uuid_shaped is_alnum v -> occurs v t ->
  exists u l, first_shaped is_alnum t u
              /\ findall analysisId_re (strip t) = u :: l.
Proof.
  intros Hv Ho. pose proof (findall_analysisId t) as F.
  destruct (findall analysisId_re (strip t)) as [|u l].
  - now destruct (F v Hv).
  - now exists u, l.
Qed.

Lemma some_text (c x : str) : Some c = Some x -> x = c.
Proof. now intros [= ->]. Qed.

Ltac texts :=
  repeat match goal with
         | H : submit_cmd _ = Some _ |- _ =>
           rewrite submit_cmd_text in H; apply some_text in H; subst
         | H : manifest_cmd _ _ = Some _ |- _ =>
           rewrite manifest_cmd_text in H; apply some_text in H; subst
         | H : upload_cmd _ = Some _ |- _ =>
           rewrite upload_cmd_text in H; apply some_text in H; subst
         | H : publish_cmd _ _ = Some _ |- _ =>
           rewrite publish_cmd_text in H; apply some_text in H; subst
         end.

Ltac trace_simpl :=
  cbv zeta; cbn [app popens flat_map List.length fst snd exit_status].

(** ** Extraction of the analysis identifier *)

(** C2. When step 1 exits with status 0 and its output, as text, has a
    UUID-shaped substring, the identifier the script extracts is the
    leftmost such substring: step 1 prints it and hands it on.  On the
    output "some text ab12cd34-ef56-7890-ab12-cd34ef567890 trailing" the
    identifier is ab12cd34-ef56-7890-ab12-cd34ef567890. *)
Theorem analysisId_first_match args sh c1 t v :
  submit_cmd args = Some c1 ->
  returncode (sh 0%nat c1) = 0%Z ->
  utf8_decode (stdout (sh 0%nat c1)) = Some t ->
  uuid_shaped is_alnum v -> occurs v t ->
  (exists id,
      first_shaped is_alnum t id
      /\ submit_step args sh []
         = (Val id, [Print (running_submit c1); Popen c1; Print success;
                     Print (generated id)]))
  /\ (forall sh' tr,
         analysisId (blit ("some text " ++ demo_id ++ " trailing")) sh' tr
         = (Val (lit demo_id), tr)).
Proof.
  intros Hc Hrc Hd Hv Ho. texts. split.
  - destruct (first_shaped_exists t v Hv Ho) as (id & l & Hid & Hf).
    exists id. split; [assumption|].
    rewrite submit_step_run. trace_simpl.
    now rewrite Hrc, Hd, Hf.
  - intros sh' tr. rewrite analysisId_run. reflexivity.
Qed.

Lemma analysisId_first_match_witness :
  exists id,
    first_shaped is_alnum (lit ("xy " ++ demo_id ++ " " ++ demo_id)) id
    /\ submit_step demo_args
         (always (ok ("xy " ++ demo_id ++ " " ++ demo_id))) []
       = (Val id, [Print (running_submit (submit_text demo_args));
                   Popen (submit_text demo_args); Print success;
                   Print (generated id)]).
Proof.
  refine (proj1 (analysisId_first_match demo_args
                   (always (ok ("xy " ++ demo_id ++ " " ++ demo_id)))
                   (submit_text demo_args)
                   (lit ("xy " ++ demo_id ++ " " ++ demo_id))
                   (lit demo_id) _ _ _ _ _)).
  - reflexivity.
  - reflexivity.
  - reflexivity.
  - exists (lit "ab12cd34"), (lit "ef56"), (lit "7890"), (lit "ab12"),
      (lit "cd34ef567890").
    repeat split; repeat constructor.
  - exists (lit "xy "), (lit (" " ++ demo_id)). reflexivity.
Defined.

(** C3. When step 1 exits with status 0 and its output has no UUID-shaped
    substring, the script ends in an exception nothing catches (the
    [IndexError] of the index [[0]] whenever the output is text at all):
    nothing is printed after SUCCESS, only the submit command has been
    launched, and the exit status is 1. *)
Theorem extraction_fault args sh c1 :
  submit_cmd args = Some c1 ->
  returncode (sh 0%nat c1) = 0%Z ->
  (forall t v, utf8_decode (stdout (sh 0%nat c1)) = Some t ->
               uuid_shaped is_alnum v -> ~ occurs v t) ->
  exists e,
    workflow args sh []
    = (Raise e, [Print (running_submit c1); Popen c1; Print success])
    /\ (utf8_decode (stdout (sh 0%nat c1)) <> None -> e = IndexError)
    /\ exit_status (fst (workflow args sh [])) = 1%Z
    /\ popens (snd (workflow args sh [])) = [c1].
Proof.
  intros Hc Hrc Hno. texts.
  unfold workflow. rewrite bind_run, submit_step_run. trace_simpl.
  rewrite Hrc.
  destruct (utf8_decode (stdout (sh 0%nat (submit_text args)))) as [t|] eqn:Hd.
  - pose proof (findall_analysisId t) as F.
    destruct (findall analysisId_re (strip t)) as [|u l].
    + exists IndexError. trace_simpl. auto.
    + destruct F as (Hu & i & Ho & _).
      destruct (Hno t u eq_refl Hu). eapply occurs_at_occurs, Ho.
  - exists UnicodeDecodeError. trace_simpl. repeat split. congruence.
Qed.

Lemma extraction_fault_witness :
  exists e,
    workflow demo_args (always (ok "no identifier here")) []
    = (Raise e, [Print (running_submit (submit_text demo_args));
                 Popen (submit_text demo_args); Print success])
    /\ (utf8_decode (stdout (always (ok "no identifier here") 0%nat
                               (submit_text demo_args))) <> None
        -> e = IndexError)
    /\ exit_status (fst (workflow demo_args
                           (always (ok "no identifier here")) [])) = 1%Z
    /\ popens (snd (workflow demo_args
                      (always (ok "no identifier here")) []))
       = [submit_text demo_args].
Proof.
  apply (extraction_fault demo_args (always (ok "no identifier here"))).
  - reflexivity.
  - reflexivity.
  - intros t v [= <-] Hv Ho.
    pose proof (findall_analysisId (lit "no identifier here")) as F.
    vm_compute in F. exact (F v Hv Ho).
Defined.

(** C6, as the code has it.  Every identifier the extraction produces has
    the shape 8-4-4-4-12 with groups of lowercase letters a-z and digits
    0-9 joined by dashes, and the extraction succeeds exactly when the
    output of step 1 is text that has a substring of that shape. *)
Theorem analysisId_shape out sh tr :
  (forall id tr', analysisId out sh tr = (Val id, tr') ->
                  uuid_shaped is_alnum id)
  /\ ((exists id, analysisId out sh tr = (Val id, tr))
      <-> exists t v, utf8_decode out = Some t
                      /\ uuid_shaped is_alnum v /\ occurs v t).
Proof.
  rewrite analysisId_run.
  destruct (utf8_decode out) as [t|].
  - pose proof (findall_analysisId t) as F.
    destruct (findall analysisId_re (strip t)) as [|u l].
    + split; [discriminate|]. split.
      * intros [id [=]].
      * intros (t' & v & [= <-] & Hv & Ho). now destruct (F v Hv).
    + destruct F as (Hu & i & Ho & _). split.
      * now intros id tr' [= <- _].
      * split; [|now exists u]. intros _. exists t, u.
        repeat split; [assumption|]. eapply occurs_at_occurs, Ho.
  - split; [discriminate|]. split.
    + intros [id [=]].
    + intros (t' & v & [=] & _).
Qed.

(** C6, as stated, fails: the groups need not be hexadecimal. *)
Lemma analysisId_not_hex :
  exists id,
    analysisId (blit "zzzzzzzz-zzzz-zzzz-zzzz-zzzzzzzzzzzz")
               (always (ok EmptyString)) []
    = (Val id, [])
    /\ ~ uuid_shaped is_hex id.
Proof.
  exists (lit "zzzzzzzz-zzzz-zzzz-zzzz-zzzzzzzzzzzz"). split.
  - rewrite analysisId_run. reflexivity.
  - intros H.
    assert (M : matches (uuid_pattern lower_hex)
                        (lit "zzzzzzzz-zzzz-zzzz-zzzz-zzzzzzzzzzzz")).
    { apply matches_uuid. eapply uuid_shaped_ext; [|exact H].
      intros c. symmetry. apply atom_lower_hex. }
    assert (E : match_here (uuid_pattern lower_hex)
                  (lit "zzzzzzzz-zzzz-zzzz-zzzz-zzzzzzzzzzzz" ++ [])
                = Some (lit "zzzzzzzz-zzzz-zzzz-zzzz-zzzzzzzzzzzz", []))
      by (apply match_here_spec; auto).
    vm_compute in E. discriminate.
Qed.

(** ** The whole run *)

Lemma failure_status A p : exit_status (@failure_result A p) = 1%Z.
Proof.
  unfold failure_result.
  now destruct (utf8_decode (stdout p)), (utf8_decode (stderr p)).
Qed.

Lemma failure_popens p : popens (failure_lines p) = [].
Proof.
  unfold failure_lines.
  now destruct (utf8_decode (stdout p)), (utf8_decode (stderr p)).
Qed.

Ltac failure_branch :=
  unfold failure_result;
  repeat match goal with
         | |- context [utf8_decode ?b] => destruct (utf8_decode b)
         end;
  reflexivity.

(** The run of the script, by the exit statuses of its child processes. *)
Lemma workflow_run args sh :
  workflow args sh [] =
  let c1 := submit_text args in
  let p1 := sh 0%nat c1 in
  let tr1 := [Print (running_submit c1); Popen c1] in
  if (returncode p1 =? 0)%Z then
    match utf8_decode (stdout p1) with
    | None => (Raise UnicodeDecodeError, tr1 ++ [Print success])
    | Some t =>
      match findall analysisId_re (strip t) with
      | [] => (Raise IndexError, tr1 ++ [Print success])
      | id :: _ =>
        let c2 := manifest_text args id in
        let p2 := sh 1%nat c2 in
        let tr2 := tr1 ++ [Print success; Print (generated id);
                           Print (running_manifest c2); Popen c2] in
        if (returncode p2 =? 0)%Z then
          let c3 := upload_text args in
          let p3 := sh 2%nat c3 in
          let tr3 := tr2 ++ [Print success; Print (running c3); Popen c3] in
          if (returncode p3 =? 0)%Z then
            let c4 := publish_text args id in
            let p4 := sh 3%nat c4 in
            let tr4 :=
                tr3 ++ [Print success; Print (running c4); Popen c4] in
            if (returncode p4 =? 0)%Z then (Val tt, tr4 ++ [Print success])
            else (failure_result p4, tr4 ++ failure_lines p4)
          else (failure_result p3, tr3 ++ failure_lines p3)
        else (failure_result p2, tr2 ++ failure_lines p2)
      end
    end
  else (failure_result p1, tr1 ++ failure_lines p1).
Proof.
  unfold workflow. rewrite bind_run, submit_step_run. trace_simpl.
  destruct (returncode (sh 0%nat (submit_text args)) =? 0)%Z;
    [|failure_branch].
  destruct (utf8_decode _) as [t|]; [|reflexivity].
  destruct (findall analysisId_re (strip t)) as [|id l]; [reflexivity|].
  rewrite bind_run, manifest_step_run. trace_simpl.
  destruct (returncode (sh 1%nat (manifest_text args id)) =? 0)%Z;
    [|failure_branch].
  rewrite bind_run, upload_step_run. trace_simpl.
  destruct (returncode (sh 2%nat (upload_text args)) =? 0)%Z;
    [|failure_branch].
  rewrite publish_step_run. trace_simpl.
  reflexivity.
Qed.

Ltac run_cases args sh :=
  rewrite !(workflow_run args sh) in *; cbv zeta in *;
  let R1 := fresh "R1" in
  let R2 := fresh "R2" in
  let R3 := fresh "R3" in
  let R4 := fresh "R4" in
  let D1 := fresh "D1" in
  let F1 := fresh "F1" in
  destruct (returncode (sh 0%nat (submit_text args)) =? 0)%Z eqn:R1;
  [ destruct (utf8_decode (stdout (sh 0%nat (submit_text args))))
      as [?t|] eqn:D1;
    [ destruct (findall analysisId_re (strip t)) as [|?id ?l] eqn:F1;
      [ | destruct (returncode (sh 1%nat (manifest_text args id)) =? 0)%Z
            eqn:R2;
          [ destruct (returncode (sh 2%nat (upload_text args)) =? 0)%Z
              eqn:R3;
            [ destruct (returncode (sh 3%nat (publish_text args id)) =? 0)%Z
                eqn:R4 | ] | ] ] | ] | ];
  cbn [fst snd] in *;
  rewrite ?popens_app, ?failure_popens in *;
  cbn [app popens flat_map List.length] in *;
  rewrite ?Z.eqb_eq, ?Z.eqb_neq in *.

(** ** Failure of a child process *)

Ltac pre_of rest l :=
  lazymatch l with
  | Popen _ :: Print _ :: rest => constr:(@nil event)
  | ?x :: ?t => let p := pre_of rest t in constr:(x :: p)
  end.









(** ** The successful run *)

(** C9, as the code has it.  When step 1 exits with status 0 and its
    output is valid UTF-8 text whose leftmost UUID-shaped substring is
    [id], and the three later child processes exit with status 0 too, the
    script launches exactly the four commands submit, manifest, upload,
    publish, once each and in that order, each after the result of the one
    before has been inspected, and ends with status 0. *)
Theorem all_steps_succeed args sh c1 c2 c3 c4 t id :
  submit_cmd args = Some c1 ->
  manifest_cmd args id = Some c2 ->
  upload_cmd args = Some c3 ->
  publish_cmd args id = Some c4 ->
  returncode (sh 0%nat c1) = 0%Z ->
  utf8_decode (stdout (sh 0%nat c1)) = Some t ->
  first_shaped is_alnum t id ->
  returncode (sh 1%nat c2) = 0%Z ->
  returncode (sh 2%nat c3) = 0%Z ->
  returncode (sh 3%nat c4) = 0%Z ->
  workflow args sh []
  = (Val tt,
     [Print (running_submit c1); Popen c1; Print success;
      Print (generated id);
      Print (running_manifest c2); Popen c2; Print success;
      Print (running c3); Popen c3; Print success;
      Print (running c4); Popen c4; Print success])
  /\ exit_status (fst (workflow args sh [])) = 0%Z
  /\ popens (snd (workflow args sh [])) = [c1; c2; c3; c4].
Proof.
  intros H1 H2 H3 H4 R1 D1 Hid R2 R3 R4. texts.
  destruct (findall_of_first_shaped t id Hid) as [l F1].
  rewrite workflow_run. cbv zeta.
  rewrite R1, D1, F1, R2, R3, R4. cbn [Z.eqb]. auto.
Qed.

Lemma all_steps_succeed_witness :
  workflow demo_args (always (ok ("id: " ++ demo_id))) []
  = (Val tt,
     [Print (running_submit (submit_text demo_args));
      Popen (submit_text demo_args); Print success;
      Print (generated (lit demo_id));
      Print (running_manifest (manifest_text demo_args (lit demo_id)));
      Popen (manifest_text demo_args (lit demo_id)); Print success;
      Print (running (upload_text demo_args));
      Popen (upload_text demo_args); Print success;
      Print (running (publish_text demo_args (lit demo_id)));
      Popen (publish_text demo_args (lit demo_id)); Print success])
  /\ exit_status (fst (workflow demo_args
                         (always (ok ("id: " ++ demo_id))) [])) = 0%Z
  /\ popens (snd (workflow demo_args (always (ok ("id: " ++ demo_id))) []))
     = [submit_text demo_args; manifest_text demo_args (lit demo_id);
        upload_text demo_args; publish_text demo_args (lit demo_id)].
Proof.
  apply (all_steps_succeed demo_args (always (ok ("id: " ++ demo_id)))
                           _ _ _ _ (lit ("id: " ++ demo_id)) (lit demo_id));
    try reflexivity.
  pose proof (findall_analysisId (lit ("id: " ++ demo_id))) as F.
  vm_compute in F. exact F.
Defined.

(** C9, as stated, fails: every child exits with status 0 and the output
    of step 1 holds the identifier, after one byte that is not UTF-8; the
    script launches the submit command only and ends with status 1. *)
Lemma zero_exits_not_enough :
  (forall n c, returncode (binary_then_id n c) = 0%Z)
  /\ stdout (binary_then_id 0%nat (submit_text demo_args))
     = [xff] ++ blit demo_id
  /\ exit_status (fst (workflow demo_args binary_then_id [])) = 1%Z
  /\ popens (snd (workflow demo_args binary_then_id []))
     = [submit_text demo_args].
Proof. repeat split; reflexivity. Qed.

(** ** Every command is printed before it is run *)

Lemma announced_split tok tr pre cmd post prev :
  announced tok prev tr -> tr = pre ++ Popen cmd :: post ->
  (exists pre' line, pre = pre' ++ [Print line] /\ occurs cmd line
                     /\ occurs tok cmd)
  \/ (pre = [] /\ exists line, prev = Some line /\ occurs cmd line
                               /\ occurs tok cmd).
Proof.
  revert pre prev. induction tr as [|e tr IH]; intros pre prev Ha E.
  - destruct pre; discriminate.
  - destruct pre as [|e' pre]; simpl in E; injection E as -> E.
    + right. split; [reflexivity|]. simpl in Ha. destruct Ha as [Ha _].
      destruct prev as [line|]; [|contradiction]. now exists line.
    + left. destruct e' as [l|c]; simpl in Ha.
      * destruct (IH pre (Some l) Ha E)
          as [(pre' & line & -> & Ho)|(-> & line & [= <-] & Ho)].
        -- now exists (Print l :: pre'), line.
        -- now exists [], l.
      * destruct Ha as [_ Ha].
        destruct (IH pre None Ha E)
          as [(pre' & line & -> & Ho)|(_ & line & [=] & _)].
        now exists (Popen c :: pre'), line.
Qed.

Lemma announced_failure tok prev p : announced tok prev (failure_lines p).
Proof.
  unfold failure_lines.
  now destruct (utf8_decode (stdout p)), (utf8_decode (stderr p)).
Qed.

Lemma occurs_intro u t pre post : t = pre ++ u ++ post -> occurs u t.
Proof. intros ->. now exists pre, post. Qed.

Lemma occurs_running_submit c : occurs c (running_submit c).
Proof. now apply (occurs_intro _ _ (lit "Running ") (lit " :")). Qed.

Lemma occurs_running_manifest c : occurs c (running_manifest c).
Proof. now apply (occurs_intro _ _ (lit "Running : ") (lit " ")). Qed.

Lemma occurs_running c : occurs c (running c).
Proof.
  apply (occurs_intro _ _ (lit "Running : ") []).
  now rewrite app_nil_r.
Qed.

Lemma token_in_registrar args sub :
  occurs (py_str (args token)) (registrar_text args sub).
Proof.
  now apply (occurs_intro _ _ (nl ++ lit "docker run -e CLIENT_ACCESS_TOKEN=")
               (lit " -e CLIENT_STUDY_ID=" ++ py_str (args studyId)
                ++ lit " -e CLIENT_SERVER_URL=" ++ py_str (args song_url)
                ++ lit " --network=" ++ dq ++ lit "host" ++ dq
                ++ lit " --mount type=bind,source=" ++ py_str (args directory)
                ++ lit ",target=/output ghcr.io/overture-stack/song-client "
                ++ sub)).
Qed.

Lemma token_in_upload args : occurs (py_str (args token)) (upload_text args).
Proof.
  now apply (occurs_intro _ _ (nl ++ lit "docker run -e ACCESSTOKEN=")
               (lit " -e STORAGE_URL=" ++ py_str (args score_url)
                ++ lit " -e METADATA_URL=" ++ py_str (args song_url)
                ++ lit " --network=" ++ dq ++ lit "host" ++ dq
                ++ lit " --mount type=bind,source=" ++ dq
                ++ py_str (args directory) ++ dq
                ++ lit ",target=/output ghcr.io/overture-stack/score "
                ++ lit "score-client upload --manifest /output/manifest.txt"
                ++ nl)).
Qed.

Lemma workflow_announced args sh :
  announced (py_str (args token)) None (snd (workflow args sh [])).
Proof.
  pose proof (occurs_running_submit (submit_text args)).
  pose proof (token_in_upload args).
  pose proof (occurs_running (upload_text args)).
  pose proof (token_in_registrar args) as Hr.
  rewrite workflow_run. cbv zeta.
  repeat match goal with
         | |- context [if ?b then _ else _] => destruct b
         | |- context [match ?o with Some _ => _ | None => _ end] =>
           destruct o
         | |- context [match ?o with [] => _ | _ :: _ => _ end] =>
           destruct o
         end;
    cbn [snd app announced];
    repeat split;
    auto using announced_failure, occurs_running_manifest, occurs_running;
    apply Hr.
Qed.

(** C10. On every run, whatever the configuration and whatever the child
    processes do, each child process is launched right after the script has
    printed a line that shows its whole command line, and that command line
    shows the access token as it was given; the first thing the script does
    is to print and launch the submit command. *)
Theorem command_printed_before_run args sh pre cmd post :
  snd (workflow args sh []) = pre ++ Popen cmd :: post ->
  (exists pre' line,
      pre = pre' ++ [Print line] /\ occurs cmd line
      /\ occurs (py_str (args token)) cmd)
  /\ (exists c1 rest,
         submit_cmd args = Some c1
         /\ snd (workflow args sh [])
            = Print (running_submit c1) :: Popen c1 :: rest).
Proof.
  intros E. split.
  - destruct (announced_split _ _ _ _ _ _ (workflow_announced args sh) E)
      as [H|(_ & line & [=] & _)].
    exact H.
  - exists (submit_text args). rewrite workflow_run. cbv zeta.
    repeat match goal with
           | |- context [if ?b then _ else _] => destruct b
           | |- context [match ?o with Some _ => _ | None => _ end] =>
             destruct o
           | |- context [match ?o with [] => _ | _ :: _ => _ end] =>
             destruct o
           end;
      cbn [snd app]; eexists; split; reflexivity.
Qed.

Lemma command_printed_before_run_witness :
  (exists pre' line,
      [Print (running_submit (submit_text demo_args))]
      = pre' ++ [Print line]
      /\ occurs (submit_text demo_args) line
      /\ occurs (py_str (demo_args token)) (submit_text demo_args))
  /\ (exists c1 rest,
         submit_cmd demo_args = Some c1
         /\ snd (workflow demo_args manifest_fails [])
            = Print (running_submit c1) :: Popen c1 :: rest).
Proof.
  eapply (command_printed_before_run demo_args manifest_fails
            [Print (running_submit (submit_text demo_args))]
            (submit_text demo_args)).
  vm_compute. reflexivity.
Defined.

(** ** What the commands pass to the clients *)

Ltac occurs_by pre post :=
  apply (occurs_intro _ _ pre post);
  unfold env_var, bind_mount, registrar_text, upload_text;
  rewrite <- ?app_assoc; reflexivity.

Lemma registrar_passes args sub :
  let c := registrar_text args sub in
  occurs (env_var "CLIENT_ACCESS_TOKEN" (py_str (args token))) c
  /\ occurs (env_var "CLIENT_STUDY_ID" (py_str (args studyId))) c
  /\ occurs (env_var "CLIENT_SERVER_URL" (py_str (args song_url))) c
  /\ occurs (bind_mount (py_str (args directory))) c
  /\ ends_with c sub.
Proof.
  cbv zeta. repeat split.
  - occurs_by (nl ++ lit "docker run ")
      (lit "-e CLIENT_STUDY_ID=" ++ py_str (args studyId)
       ++ lit " -e CLIENT_SERVER_URL=" ++ py_str (args song_url)
       ++ lit " --network=" ++ dq ++ lit "host" ++ dq
       ++ lit " --mount type=bind,source=" ++ py_str (args directory)
       ++ lit ",target=/output ghcr.io/overture-stack/song-client " ++ sub).
  - occurs_by (nl ++ lit "docker run -e CLIENT_ACCESS_TOKEN="
               ++ py_str (args token) ++ lit " ")
      (lit "-e CLIENT_SERVER_URL=" ++ py_str (args song_url)
       ++ lit " --network=" ++ dq ++ lit "host" ++ dq
       ++ lit " --mount type=bind,source=" ++ py_str (args directory)
       ++ lit ",target=/output ghcr.io/overture-stack/song-client " ++ sub).
  - occurs_by (nl ++ lit "docker run -e CLIENT_ACCESS_TOKEN="
               ++ py_str (args token)
               ++ lit " -e CLIENT_STUDY_ID=" ++ py_str (args studyId)
               ++ lit " ")
      (lit "--network=" ++ dq ++ lit "host" ++ dq
       ++ lit " --mount type=bind,source=" ++ py_str (args directory)
       ++ lit ",target=/output ghcr.io/overture-stack/song-client " ++ sub).
  - occurs_by (nl ++ lit "docker run -e CLIENT_ACCESS_TOKEN="
               ++ py_str (args token)
               ++ lit " -e CLIENT_STUDY_ID=" ++ py_str (args studyId)
               ++ lit " -e CLIENT_SERVER_URL=" ++ py_str (args song_url)
               ++ lit " --network=" ++ dq ++ lit "host" ++ dq ++ lit " ")
      (lit "ghcr.io/overture-stack/song-client " ++ sub).
  - exists (nl ++ lit "docker run -e CLIENT_ACCESS_TOKEN="
            ++ py_str (args token)
            ++ lit " -e CLIENT_STUDY_ID=" ++ py_str (args studyId)
            ++ lit " -e CLIENT_SERVER_URL=" ++ py_str (args song_url)
            ++ lit " --network=" ++ dq ++ lit "host" ++ dq
            ++ lit " --mount type=bind,source=" ++ py_str (args directory)
            ++ lit ",target=/output ghcr.io/overture-stack/song-client ").
    unfold registrar_text. rewrite <- ?app_assoc. reflexivity.
Qed.

Lemma upload_passes args :
  let c := upload_text args in
  occurs (env_var "ACCESSTOKEN" (py_str (args token))) c
  /\ occurs (env_var "STORAGE_URL" (py_str (args score_url))) c
  /\ occurs (env_var "METADATA_URL" (py_str (args song_url))) c
  /\ occurs (bind_mount (dq ++ py_str (args directory) ++ dq)) c
  /\ ends_with c
       (lit "score-client upload --manifest /output/manifest.txt" ++ nl).
Proof.
  cbv zeta. repeat split.
  - occurs_by (nl ++ lit "docker run ")
      (lit "-e STORAGE_URL=" ++ py_str (args score_url)
       ++ lit " -e METADATA_URL=" ++ py_str (args song_url)
       ++ lit " --network=" ++ dq ++ lit "host" ++ dq
       ++ lit " --mount type=bind,source=" ++ dq
       ++ py_str (args directory) ++ dq
       ++ lit ",target=/output ghcr.io/overture-stack/score "
       ++ lit "score-client upload --manifest /output/manifest.txt" ++ nl).
  - occurs_by (nl ++ lit "docker run -e ACCESSTOKEN="
               ++ py_str (args token) ++ lit " ")
      (lit "-e METADATA_URL=" ++ py_str (args song_url)
       ++ lit " --network=" ++ dq ++ lit "host" ++ dq
       ++ lit " --mount type=bind,source=" ++ dq
       ++ py_str (args directory) ++ dq
       ++ lit ",target=/output ghcr.io/overture-stack/score "
       ++ lit "score-client upload --manifest /output/manifest.txt" ++ nl).
  - occurs_by (nl ++ lit "docker run -e ACCESSTOKEN="
               ++ py_str (args token)
               ++ lit " -e STORAGE_URL=" ++ py_str (args score_url)
               ++ lit " ")
      (lit "--network=" ++ dq ++ lit "host" ++ dq
       ++ lit " --mount type=bind,source=" ++ dq
       ++ py_str (args directory) ++ dq
       ++ lit ",target=/output ghcr.io/overture-stack/score "
       ++ lit "score-client upload --manifest /output/manifest.txt" ++ nl).
  - occurs_by (nl ++ lit "docker run -e ACCESSTOKEN="
               ++ py_str (args token)
               ++ lit " -e STORAGE_URL=" ++ py_str (args score_url)
               ++ lit " -e METADATA_URL=" ++ py_str (args song_url)
               ++ lit " --network=" ++ dq ++ lit "host" ++ dq ++ lit " ")
      (lit "ghcr.io/overture-stack/score "
       ++ lit "score-client upload --manifest /output/manifest.txt" ++ nl).
  - exists (nl ++ lit "docker run -e ACCESSTOKEN="
            ++ py_str (args token)
            ++ lit " -e STORAGE_URL=" ++ py_str (args score_url)
            ++ lit " -e METADATA_URL=" ++ py_str (args song_url)
            ++ lit " --network=" ++ dq ++ lit "host" ++ dq
            ++ lit " --mount type=bind,source=" ++ dq
            ++ py_str (args directory) ++ dq
            ++ lit ",target=/output ghcr.io/overture-stack/score ").
    unfold upload_text. rewrite <- ?app_assoc. reflexivity.
Qed.

(** C8. Each command passes the configuration as environment variables of
    the container: CLIENT_ACCESS_TOKEN, CLIENT_STUDY_ID and
    CLIENT_SERVER_URL in the three registrar commands, ACCESSTOKEN,
    STORAGE_URL and METADATA_URL in the upload command; each bind-mounts
    the configured directory at /output, and the file arguments of the
    subcommands (the metadata document, the manifest, the download
    directory) are paths under /output. *)
Theorem commands_pass_configuration args id :
  exists c1 c2 c3 c4,
    submit_cmd args = Some c1 /\ manifest_cmd args id = Some c2
    /\ upload_cmd args = Some c3 /\ publish_cmd args id = Some c4
    /\ Forall
         (fun c =>
            occurs (env_var "CLIENT_ACCESS_TOKEN" (py_str (args token))) c
            /\ occurs (env_var "CLIENT_STUDY_ID" (py_str (args studyId))) c
            /\ occurs (env_var "CLIENT_SERVER_URL" (py_str (args song_url))) c
            /\ occurs (bind_mount (py_str (args directory))) c)
         [c1; c2; c4]
    /\ occurs (env_var "ACCESSTOKEN" (py_str (args token))) c3
    /\ occurs (env_var "STORAGE_URL" (py_str (args score_url))) c3
    /\ occurs (env_var "METADATA_URL" (py_str (args song_url))) c3
    /\ occurs (bind_mount (dq ++ py_str (args directory) ++ dq)) c3
    /\ ends_with c1 (lit "sing submit -f /output/" ++ py_str (args json) ++ nl)
    /\ ends_with c2 (lit "sing manifest -a " ++ id
                     ++ lit " -f /output/manifest.txt -d /output/" ++ nl)
    /\ ends_with c3
         (lit "score-client upload --manifest /output/manifest.txt" ++ nl)
    /\ ends_with c4 (lit "sing publish -a " ++ id ++ nl).
Proof.
  exists (submit_text args), (manifest_text args id), (upload_text args),
    (publish_text args id).
  repeat (split; [reflexivity|]).
  split.
  - repeat constructor;
      unfold submit_text, manifest_text, publish_text;
      apply registrar_passes.
  - pose proof (upload_passes args) as (U1 & U2 & U3 & U4 & U5).
    repeat (split; [assumption|]).
    repeat split; try assumption; apply registrar_passes.
Qed.

(** ** Where the analysis identifier can be found *)

Lemma occurs_app_delim (P : N -> bool) u x d y :
  u <> [] -> Forall (fun c => P c = true) u -> P d = false ->
  occurs u (x ++ d :: y) -> occurs u x \/ occurs u y.
Proof.
  intros Hne Hu Hd (pre & post & E).
  apply app_eq_app in E. destruct E as [l [[-> E]|[-> E]]].
  - symmetry in E. apply app_eq_app in E.
    destruct E as [l2 [[-> E]|[-> E]]].
    + left. now exists pre, l2.
    + destruct l2 as [|c l2].
      * left. exists pre, []. now rewrite !app_nil_r.
      * simpl in E. injection E as <- _.
        apply Forall_app in Hu. destruct Hu as [_ Hu].
        inversion Hu; subst. congruence.
  - destruct l as [|c l].
    + simpl in E. destruct u as [|c u]; [contradiction|].
      simpl in E. injection E as <- _. inversion Hu; subst. congruence.
    + simpl in E. injection E as <- ->. right. now exists l, post.
Qed.

Lemma occurs_pieces (P : N -> bool) u ps last :
  u <> [] -> Forall (fun c => P c = true) u ->
  Forall (fun pd => P (snd pd) = false) ps ->
  occurs u (pieces_text ps last) ->
  Exists (fun pd => occurs u (fst pd)) ps \/ occurs u last.
Proof.
  intros Hne Hu Hps. induction Hps as [|[p d] ps Hd Hps IH]; simpl.
  - auto.
  - intros Ho. apply (occurs_app_delim P) in Ho; auto.
    destruct Ho as [Ho|Ho].
    + left. now constructor.
    + destruct (IH Ho) as [H|H]; [left; now constructor 2|now right].
Qed.

Lemma uuid_shaped_uuid_chars u :
  uuid_shaped is_alnum u -> Forall (fun c => uuid_char c = true) u.
Proof.
  intros H. eapply Forall_impl; [|apply (uuid_shaped_chars _ _ H)].
  unfold uuid_char. intros c [->| ->]; [reflexivity|].
  apply orb_true_r.
Qed.

Lemma uuid_shaped_nonempty cls u : uuid_shaped cls u -> u <> [].
Proof. intros H ->. apply uuid_shaped_length in H. discriminate. Qed.

(** A text in which [findall] finds nothing has no UUID-shaped substring. *)
Lemma no_match_no_uuid s u :
  findall analysisId_re s = [] -> uuid_shaped is_alnum u -> ~ occurs u s.
Proof.
  intros F Hu Ho. pose proof (findall_first _ analysisId_re_nil s) as H.
  rewrite F in H. destruct (occurs_occurs_at _ _ Ho) as [i Hi].
  apply (H u i); [now apply matches_analysisId_re|assumption].
Qed.

Lemma submit_text_pieces args :
  submit_text args =
  pieces_text
    [(nl ++ lit "docker run -e CLIENT_ACCESS_TOKEN", 61);
     (py_str (args token), 32);
     (lit "-e CLIENT_STUDY_ID", 61); (py_str (args studyId), 32);
     (lit "-e CLIENT_SERVER_URL", 61); (py_str (args song_url), 32);
     (lit "--network=" ++ dq ++ lit "host" ++ dq
      ++ lit " --mount type=bind,source", 61);
     (py_str (args directory), 44);
     (lit "target=/output ghcr.io/overture-stack/song-client sing submit -f ",
      47);
     (lit "output", 47);
     (py_str (args json), 10)] [].
Proof.
  unfold submit_text, registrar_text. cbn [pieces_text].
  rewrite <- ?app_assoc. reflexivity.
Qed.

Lemma upload_text_pieces args :
  upload_text args =
  pieces_text
    [(nl ++ lit "docker run -e ACCESSTOKEN", 61);
     (py_str (args token), 32);
     (lit "-e STORAGE_URL", 61); (py_str (args score_url), 32);
     (lit "-e METADATA_URL", 61); (py_str (args song_url), 32);
     (lit "--network=" ++ dq ++ lit "host" ++ dq
      ++ lit " --mount type=bind,source=", 34);
     (py_str (args directory), 34)]
    (lit ",target=/output ghcr.io/overture-stack/score "
     ++ lit "score-client upload --manifest /output/manifest.txt" ++ nl).
Proof.
  unfold upload_text. cbn [pieces_text].
  rewrite <- ?app_assoc. reflexivity.
Qed.

Ltac literal_piece :=
  match goal with
  | Hu : uuid_shaped is_alnum ?u, Ho : occurs ?u ?s |- _ =>
    exfalso; refine (no_match_no_uuid s u _ Hu Ho); reflexivity
  end.

Lemma id_in_submit_text args u :
  uuid_shaped is_alnum u -> occurs u (submit_text args) ->
  Exists (occurs u) (submit_values args).
Proof.
  intros Hu Ho. rewrite submit_text_pieces in Ho.
  apply (occurs_pieces uuid_char) in Ho;
    [|now apply (uuid_shaped_nonempty is_alnum)
     |now apply uuid_shaped_uuid_chars
     |repeat constructor].
  destruct Ho as [Ho|Ho]; [|literal_piece].
  unfold submit_values. cbn [map].
  repeat match goal with
         | H : Exists _ (_ :: _) |- _ =>
           apply Exists_cons in H; cbn [fst] in H; destruct H as [H|H]
         | H : Exists _ [] |- _ => inversion H
         end;
    try literal_piece; auto 6 using Exists_cons_hd, Exists_cons_tl.
Qed.

Lemma id_in_upload_text args u :
  uuid_shaped is_alnum u -> occurs u (upload_text args) ->
  Exists (occurs u) (upload_values args).
Proof.
  intros Hu Ho. rewrite upload_text_pieces in Ho.
  apply (occurs_pieces uuid_char) in Ho;
    [|now apply (uuid_shaped_nonempty is_alnum)
     |now apply uuid_shaped_uuid_chars
     |repeat constructor].
  destruct Ho as [Ho|Ho]; [|literal_piece].
  unfold upload_values. cbn [map].
  repeat match goal with
         | H : Exists _ (_ :: _) |- _ =>
           apply Exists_cons in H; cbn [fst] in H; destruct H as [H|H]
         | H : Exists _ [] |- _ => inversion H
         end;
    try literal_piece; auto 6 using Exists_cons_hd, Exists_cons_tl.
Qed.

Lemma occurs_id_manifest args id : occurs id (manifest_text args id).
Proof.
  apply (occurs_intro _ _
           (nl ++ lit "docker run -e CLIENT_ACCESS_TOKEN="
            ++ py_str (args token)
            ++ lit " -e CLIENT_STUDY_ID=" ++ py_str (args studyId)
            ++ lit " -e CLIENT_SERVER_URL=" ++ py_str (args song_url)
            ++ lit " --network=" ++ dq ++ lit "host" ++ dq
            ++ lit " --mount type=bind,source=" ++ py_str (args directory)
            ++ lit ",target=/output ghcr.io/overture-stack/song-client "
            ++ lit "sing manifest -a ")
           (lit " -f /output/manifest.txt -d /output/" ++ nl)).
  unfold manifest_text, registrar_text. rewrite <- ?app_assoc. reflexivity.
Qed.

Lemma occurs_id_publish args id : occurs id (publish_text args id).
Proof.
  apply (occurs_intro _ _
           (nl ++ lit "docker run -e CLIENT_ACCESS_TOKEN="
            ++ py_str (args token)
            ++ lit " -e CLIENT_STUDY_ID=" ++ py_str (args studyId)
            ++ lit " -e CLIENT_SERVER_URL=" ++ py_str (args song_url)
            ++ lit " --network=" ++ dq ++ lit "host" ++ dq
            ++ lit " --mount type=bind,source=" ++ py_str (args directory)
            ++ lit ",target=/output ghcr.io/overture-stack/song-client "
            ++ lit "sing publish -a ") nl).
  unfold publish_text, registrar_text. rewrite <- ?app_assoc. reflexivity.
Qed.

(** C7, as the code has it.  The identifier extracted after step 1 is
    substituted, unchanged, into the manifest and the publish command and
    appears there verbatim; the submit and the upload command are built
    from the configuration alone, so the identifier is found in one of
    them only if it is found inside a configuration value substituted
    into it; and the commands the script launches are, in order, these
    four or the first few of them. *)
Theorem analysisId_in_commands args sh c1 t id :
  submit_cmd args = Some c1 ->
  returncode (sh 0%nat c1) = 0%Z ->
  utf8_decode (stdout (sh 0%nat c1)) = Some t ->
  first_shaped is_alnum t id ->
  exists c2 c3 c4,
    manifest_cmd args id = Some c2 /\ upload_cmd args = Some c3
    /\ publish_cmd args id = Some c4
    /\ occurs id c2 /\ occurs id c4
    /\ (occurs id c1 -> Exists (occurs id) (submit_values args))
    /\ (occurs id c3 -> Exists (occurs id) (upload_values args))
    /\ exists n, (2 <= n)%nat
                 /\ popens (snd (workflow args sh []))
                    = firstn n [c1; c2; c3; c4].
Proof.
  intros H1 R1 D1 Hid. texts.
  destruct (findall_of_first_shaped t id Hid) as [l F1].
  exists (manifest_text args id), (upload_text args), (publish_text args id).
  repeat (split; [reflexivity|]).
  split; [apply occurs_id_manifest|]. split; [apply occurs_id_publish|].
  destruct Hid as [Hid _].
  split; [now apply id_in_submit_text|].
  split; [now apply id_in_upload_text|].
  rewrite workflow_run. cbv zeta. rewrite R1, D1, F1. cbn [Z.eqb].
  repeat match goal with
         | |- context [if ?b then _ else _] => destruct b
         end;
    cbn [snd]; rewrite ?popens_app, ?failure_popens;
    cbn [app popens flat_map].
  - exists 4%nat. split; [lia|reflexivity].
  - exists 4%nat. split; [lia|reflexivity].
  - exists 3%nat. split; [lia|reflexivity].
  - exists 2%nat. split; [lia|reflexivity].
Qed.

Lemma analysisId_in_commands_witness :
  exists c2 c3 c4,
    manifest_cmd demo_args (lit demo_id) = Some c2
    /\ upload_cmd demo_args = Some c3
    /\ publish_cmd demo_args (lit demo_id) = Some c4
    /\ occurs (lit demo_id) c2 /\ occurs (lit demo_id) c4
    /\ (occurs (lit demo_id) (submit_text demo_args) ->
        Exists (occurs (lit demo_id)) (submit_values demo_args))
    /\ (occurs (lit demo_id) c3 ->
        Exists (occurs (lit demo_id)) (upload_values demo_args))
    /\ exists n, (2 <= n)%nat
                 /\ popens (snd (workflow demo_args manifest_fails []))
                    = firstn n [submit_text demo_args; c2; c3; c4].
Proof.
  apply (analysisId_in_commands demo_args manifest_fails
           (submit_text demo_args) (lit demo_id) (lit demo_id));
    try reflexivity.
  pose proof (findall_analysisId (lit demo_id)) as F.
  vm_compute in F. exact F.
Defined.

(** C7, as stated, fails: when the access token is the very text the
    registrar answers with, the identifier is found in the upload command. *)
Lemma analysisId_in_upload_command :
  fst (submit_step token_args (always (ok demo_id)) []) = Val (lit demo_id)
  /\ exists c3, upload_cmd token_args = Some c3 /\ occurs (lit demo_id) c3.
Proof.
  split; [reflexivity|].
  exists (upload_text token_args). split; [reflexivity|].
  apply (token_in_upload token_args).
Qed.

(** ** The command line *)

Lemma str_eqb_eq a b : str_eqb a b = true <-> a = b.
Proof.
  revert b. induction a as [|x a IH]; intros [|y b]; simpl;
    try (split; [discriminate|discriminate]); [tauto|].
  rewrite andb_true_iff, N.eqb_eq, IH. split.
  - now intros [-> ->].
  - now intros [= -> ->].
Qed.

Lemma dest_eqb_eq a b : dest_eqb a b = true <-> a = b.
Proof. destruct a, b; simpl; split; congruence. Qed.

Lemma all_actions d : In d actions.
Proof. destruct d; simpl; tauto. Qed.

Lemma find_action_In a d : find_action a = Some d -> In a (option_strings d).
Proof.
  unfold find_action. intros H. apply find_some in H. destruct H as [_ H].
  apply existsb_exists in H. destruct H as (f & Hf & E).
  apply str_eqb_eq in E. now subst.
Qed.

Lemma finish_parsed seen extras args d :
  finish seen extras = Parsed args ->
  args d = match seen d with Some v => PStr v | None => default d end
  /\ (required d = true -> seen d <> None).
Proof.
  unfold finish.
  destruct (existsb _ actions) eqn:E; [discriminate|].
  destruct extras; [|discriminate]. intros [= <-]. split; [reflexivity|].
  intros Hr Hs.
  assert (X : existsb (fun d => required d && negb (is_some (seen d))) actions
              = true).
  { apply existsb_exists. exists d. split; [apply all_actions|].
    now rewrite Hr, Hs. }
  congruence.
Qed.

(** What a successful parse leaves in the namespace for [d]: the value
    that follows one of the option strings of [d] on the command line, or
    else what had been seen before, or the default; and a required [d] has
    been seen. *)
Lemma parse_loop_parsed d n :
  forall argv seen extras args,
    (List.length argv <= n)%nat ->
    parse_loop argv seen extras = Parsed args ->
    (exists pre f v post,
        argv = pre ++ f :: v :: post /\ In f (option_strings d)
        /\ args d = PStr v)
    \/ (args d = match seen d with Some v => PStr v | None => default d end
        /\ (required d = true -> seen d <> None)).
Proof.
  induction n as [|n IH]; intros argv seen extras args Hn.
  - destruct argv; [|simpl in Hn; lia]. simpl. intros H. right.
    now apply finish_parsed with (extras := extras).
  - destruct argv as [|a rest].
    + simpl. intros H. right. now apply finish_parsed with (extras := extras).
    + simpl in Hn. simpl.
      destruct (is_help a);
        [destruct (forallb in_fragment rest); discriminate|].
      destruct (find_action a) as [d'|] eqn:Ha.
      * destruct rest as [|v rest']; [discriminate|].
        destruct (starts_with_dash v); simpl negb; cbv iota.
        -- destruct (is_help v || is_some (find_action v)); discriminate.
        -- intros H. simpl in Hn. apply IH in H; [|lia].
           destruct H as [(pre & f & v' & post & -> & Hf & Hv)|[Hv Hr]].
           ++ left. now exists (a :: v :: pre), f, v', post.
           ++ unfold store in Hv, Hr.
              destruct (dest_eqb d d') eqn:E.
              ** apply dest_eqb_eq in E. subst d'. left.
                 exists [], a, v, rest'. split; [reflexivity|].
                 split; [now apply find_action_In|assumption].
              ** right. auto.
      * destruct (starts_with_dash a); [discriminate|].
        intros H. apply IH in H; [|lia].
        destruct H as [(pre & f & v' & post & -> & Hf & Hv)|H].
        -- left. now exists (a :: pre), f, v', post.
        -- now right.
Qed.

Lemma parse_args_parsed d argv args :
  parse_args argv = Parsed args ->
  (exists pre f v post,
      argv = pre ++ f :: v :: post /\ In f (option_strings d)
      /\ args d = PStr v)
  \/ (args d = default d /\ required d = false).
Proof.
  intros H. apply (parse_loop_parsed d (List.length argv)) in H; [|lia].
  destruct H as [H|[Hv Hr]]; [now left|]. right. split; [assumption|].
  destruct (required d); [|reflexivity]. now destruct Hr.
Qed.

Lemma parse_loop_exit n :
  forall argv seen extras status,
    (List.length argv <= n)%nat ->
    parse_loop argv seen extras = ParserExit status ->
    status = 2%Z
    \/ (status = 0%Z /\ (In (lit "-h") argv \/ In (lit "--help") argv)).
Proof.
  induction n as [|n IH]; intros argv seen extras status Hn.
  - destruct argv; [|simpl in Hn; lia]. simpl. unfold finish.
    destruct (existsb _ actions); [intros [= <-]; now left|].
    destruct extras; [discriminate|intros [= <-]; now left].
  - destruct argv as [|a rest].
    + simpl. unfold finish.
      destruct (existsb _ actions); [intros [= <-]; now left|].
      destruct extras; [discriminate|intros [= <-]; now left].
    + simpl in Hn. simpl.
      destruct (is_help a) eqn:Hh.
      * destruct (forallb in_fragment rest); [|discriminate].
        intros [= <-]. right. split; [reflexivity|].
        unfold is_help in Hh. apply orb_true_iff in Hh.
        destruct Hh as [Hh|Hh]; apply str_eqb_eq in Hh; subst; simpl; auto.
      * destruct (find_action a) as [d'|].
        -- destruct rest as [|v rest']; [intros [= <-]; now left|].
           destruct (starts_with_dash v); simpl negb; cbv iota.
           ++ destruct (is_help v || is_some (find_action v));
                [intros [= <-]; now left|discriminate].
           ++ intros H. simpl in Hn. apply IH in H; [|lia].
              destruct H as [H|[H [H'|H']]]; [now left| |];
                right; simpl; auto.
        -- destruct (starts_with_dash a); [discriminate|].
           intros H. apply IH in H; [|lia].
           destruct H as [H|[H [H'|H']]]; [now left| |]; right; simpl; auto.
Qed.

Lemma script_parsed argv args sh :
  parse_args argv = Parsed args ->
  exists r rest,
    script argv sh
    = Some (r, Print (running_submit (submit_text args))
               :: Popen (submit_text args) :: rest).
Proof.
  intros H. unfold script. rewrite H, workflow_run. cbv zeta.
  repeat match goal with
         | |- context [if ?b then _ else _] => destruct b
         | |- context [match ?o with Some _ => _ | None => _ end] =>
           destruct o
         | |- context [match ?o with [] => _ | _ :: _ => _ end] =>
           destruct o
         end;
    cbn [app]; eexists; eexists; reflexivity.
Qed.

(** C4, as the code has it.  The options -j/--json and -d/--directory are
    not required: when one of them is absent from a command line that
    [parse_args] accepts, its value is [None], the script goes on, and the
    first child process is launched with the text None in the place of the
    missing file name or directory. *)
Theorem json_and_directory_optional argv args sh d :
  parse_args argv = Parsed args ->
  d = json \/ d = directory ->
  (forall f, In f (option_strings d) -> ~ In f argv) ->
  args d = PNone
  /\ exists c1 r rest,
      submit_cmd args = Some c1
      /\ script argv sh
         = Some (r, Print (running_submit c1) :: Popen c1 :: rest)
      /\ match d with
         | json => ends_with c1 (lit "sing submit -f /output/None" ++ nl)
         | _ => occurs (bind_mount (lit "None")) c1
         end.
Proof.
  intros Hp Hd Hno.
  assert (Hv : args d = PNone).
  { destruct (parse_args_parsed d argv args Hp)
      as [(pre & f & v & post & -> & Hf & _)|[Hv _]].
    - destruct (Hno f Hf). apply in_or_app. right. now left.
    - rewrite Hv. now destruct Hd as [-> | ->]. }
  split; [assumption|].
  destruct (script_parsed argv args sh Hp) as (r & rest & Hs).
  exists (submit_text args), r, rest.
  split; [reflexivity|]. split; [assumption|].
  pose proof (registrar_passes args
                (lit "sing submit -f /output/" ++ py_str (args json) ++ nl))
    as (_ & _ & _ & Hm & He).
  destruct Hd as [-> | ->].
  - unfold submit_text. rewrite Hv in He |- *. exact He.
  - unfold submit_text. rewrite Hv in Hm. exact Hm.
Qed.

Lemma json_and_directory_optional_witness :
  exists args,
    parse_args [lit "--token"; lit "secret"; lit "-d"; lit "/data"]
    = Parsed args
    /\ args json = PNone
    /\ exists c1 r rest,
        submit_cmd args = Some c1
        /\ script [lit "--token"; lit "secret"; lit "-d"; lit "/data"]
                  (always (ok demo_id))
           = Some (r, Print (running_submit c1) :: Popen c1 :: rest)
        /\ ends_with c1 (lit "sing submit -f /output/None" ++ nl).
Proof.
  eexists. split; [reflexivity|].
  apply (json_and_directory_optional
           [lit "--token"; lit "secret"; lit "-d"; lit "/data"] _
           (always (ok demo_id)) json).
  - reflexivity.
  - left. reflexivity.
  - intros f [<-|[<-|[]]] H; vm_compute in H; intuition discriminate.
Defined.

(** C4, as stated, fails: with neither -j nor -d the command line is
    accepted and the four child processes are launched. *)
Lemma json_and_directory_not_required :
  exists args r tr,
    parse_args [lit "-t"; lit "secret"] = Parsed args
    /\ args json = PNone /\ args directory = PNone
    /\ script [lit "-t"; lit "secret"] (always (ok demo_id)) = Some (r, tr)
    /\ List.length (popens tr) = 4%nat.
Proof.
  eexists. eexists. eexists. split; [reflexivity|].
  split; [reflexivity|]. split; [reflexivity|].
  split; [vm_compute; reflexivity|]. vm_compute. reflexivity.
Qed.

(** C5, as the code has it.  The option -t/--token is required: on a
    command line that names neither -t nor --token, [parse_args] does not
    return a namespace; the script leaves with the status of a usage error
    (2; or 0 when help is asked for) before any child process is launched,
    and the embedded default token is not used. *)
Theorem token_required argv sh out :
  ~ In (lit "-t") argv -> ~ In (lit "--token") argv ->
  script argv sh = Some out ->
  (forall args, parse_args argv <> Parsed args)
  /\ snd out = []
  /\ (fst out = Exit 2
      \/ (fst out = Exit 0
          /\ (In (lit "-h") argv \/ In (lit "--help") argv))).
Proof.
  intros Ht Htoken Hs.
  assert (Hn : forall args, parse_args argv <> Parsed args).
  { intros args Hp.
    destruct (parse_args_parsed token argv args Hp)
      as [(pre & f & v & post & -> & [<-|[<-|[]]] & _)|[_ [=]]].
    - apply Ht, in_or_app. right. now left.
    - apply Htoken, in_or_app. right. now left. }
  split; [assumption|].
  unfold script in Hs. destruct (parse_args argv) as [args|status|] eqn:Hp.
  - now destruct (Hn args).
  - injection Hs as <-. split; [reflexivity|]. cbn [fst].
    apply (parse_loop_exit (List.length argv)) in Hp; [|lia].
    destruct Hp as [->|[-> H]]; auto.
  - discriminate.
Qed.

Lemma token_required_witness :
  (forall args,
      parse_args [lit "--study"; lit "demoData"; lit "-j"; lit "a.json";
                  lit "-d"; lit "/data"] <> Parsed args)
  /\ snd (@Exit unit 2, @nil event) = []
  /\ (fst (@Exit unit 2, @nil event) = Exit 2
      \/ (fst (@Exit unit 2, @nil event) = Exit 0
          /\ (In (lit "-h")
                 [lit "--study"; lit "demoData"; lit "-j"; lit "a.json";
                  lit "-d"; lit "/data"]
              \/ In (lit "--help")
                    [lit "--study"; lit "demoData"; lit "-j"; lit "a.json";
                     lit "-d"; lit "/data"]))).
Proof.
  apply (token_required
           [lit "--study"; lit "demoData"; lit "-j"; lit "a.json";
            lit "-d"; lit "/data"] (always (ok demo_id))).
  - intros H. vm_compute in H. intuition discriminate.
  - intros H. vm_compute in H. intuition discriminate.
  - reflexivity.
Defined.

(** C5, as stated, fails: without -t the script stops at [parse_args] with
    status 2 and launches nothing. *)
Lemma token_omitted_rejected :
  script [lit "-j"; lit "exampleMetadata.json"; lit "-d"; lit "/data"]
         (always (ok demo_id))
  = Some (Exit 2, []).
Proof. reflexivity. Qed.

(** * Further properties of the script *)

(** ** What the exit status tells *)




(** X2. A child process is launched only after every child launched before
    it has exited with status 0: in every run, each child but the last one
    launched returned 0. *)
Theorem earlier_children_succeeded args sh k cmd :
  nth_error (popens (snd (workflow args sh []))) k = Some cmd ->
  (S k < List.length (popens (snd (workflow args sh []))))%nat ->
  returncode (sh k cmd) = 0%Z.
Proof.
  intros Hk Hlt. run_cases args sh;
    repeat (destruct k as [|k]; cbn [nth_error] in Hk;
            [injection Hk as <-; try assumption; try lia|]);
    try discriminate; try (destruct k; discriminate).
Qed.

Lemma earlier_children_succeeded_witness :
  returncode (upload_fails_binary 1%nat
                (manifest_text demo_args (lit demo_id))) = 0%Z.
Proof.
  apply (earlier_children_succeeded demo_args upload_fails_binary 1
           (manifest_text demo_args (lit demo_id))).
  - reflexivity.
  - vm_compute. lia.
Defined.

(** X3. Whatever the command line and the children do, the script ends
    with status 0, 1 or 2; status 2 is the usage error of [parse_args],
    after which nothing has been printed by the script or launched; and
    the script launches at most four children. *)
Theorem script_exit_status argv sh r tr :
  script argv sh = Some (r, tr) ->
  (exit_status r = 0%Z \/ exit_status r = 1%Z \/ exit_status r = 2%Z)
  /\ (exit_status r = 2%Z -> tr = [])
  /\ (List.length (popens tr) <= 4)%nat.
Proof.
  unfold script. destruct (parse_args argv) as [args|status|] eqn:Hp;
    [| |discriminate].
  - intros [= H]. rewrite (surjective_pairing (workflow args sh [])) in H.
    injection H as <- <-.
    run_cases args sh; rewrite ?failure_status;
      cbn [exit_status]; repeat split; auto; try lia; discriminate.
  - intros [= <- <-]. cbn [exit_status popens flat_map List.length].
    apply (parse_loop_exit (List.length argv)) in Hp; [|lia].
    destruct Hp as [->|[-> _]]; repeat split; auto; try lia; discriminate.
Qed.

Lemma script_exit_status_witness :
  (exit_status (@Exit unit 2) = 0%Z \/ exit_status (@Exit unit 2) = 1%Z
   \/ exit_status (@Exit unit 2) = 2%Z)
  /\ (exit_status (@Exit unit 2) = 2%Z -> @nil event = [])
  /\ (List.length (popens []) <= 4)%nat.
Proof.
  apply (script_exit_status [lit "-t"] quiet_world). reflexivity.
Defined.

(** ** Captured bytes that are not text *)

(** X4. When a child exits with a non-zero status and its captured output
    or its captured error is not valid UTF-8, the report stops short: the
    exit code is printed, the output too if that one decodes, and the
    script ends in an uncaught [UnicodeDecodeError] instead of
    [sys.exit(1)], without a STDERR line. *)
Theorem failure_report_not_text args sh k cmd :
  nth_error (popens (snd (workflow args sh []))) k = Some cmd ->
  returncode (sh k cmd) <> 0%Z ->
  utf8_decode (stdout (sh k cmd)) = None
  \/ utf8_decode (stderr (sh k cmd)) = None ->
  fst (workflow args sh []) = Raise UnicodeDecodeError
  /\ exists pre,
      snd (workflow args sh [])
      = pre ++ Popen cmd :: Print (errorcode_line (sh k cmd))
            :: match utf8_decode (stdout (sh k cmd)) with
               | Some o => [Print (stdout_line o)]
               | None => []
               end.
Proof.
  intros Hk Hrc Hd. run_cases args sh;
    repeat (destruct k as [|k]; cbn [nth_error] in Hk;
            [injection Hk as <-; try contradiction|]);
    try discriminate; try (destruct k; discriminate);
    unfold failure_result, failure_lines;
    match goal with
    | |- context [utf8_decode (stdout ?p)] =>
      destruct (utf8_decode (stdout p)) as [o|];
        [destruct (utf8_decode (stderr p)) as [e|];
         [destruct Hd; discriminate|]|]
    end;
    (split; [reflexivity|]);
    match goal with
    | |- exists pre, ?l = _ ++ Popen _ :: Print _ :: ?rest =>
      let pre := pre_of rest l in exists pre; reflexivity
    end.
Qed.

Lemma failure_report_not_text_witness :
  fst (workflow demo_args upload_fails_binary []) = Raise UnicodeDecodeError
  /\ exists pre,
      snd (workflow demo_args upload_fails_binary [])
      = pre ++ Popen (upload_text demo_args)
            :: Print (errorcode_line
                        (upload_fails_binary 2%nat (upload_text demo_args)))
            :: match utf8_decode
                       (stdout (upload_fails_binary 2%nat
                                  (upload_text demo_args))) with
               | Some o => [Print (stdout_line o)]
               | None => []
               end.
Proof.
  apply (failure_report_not_text demo_args upload_fails_binary 2
           (upload_text demo_args)).
  - reflexivity.
  - vm_compute. discriminate.
  - right. reflexivity.
Defined.

(** X5. When step 1 exits with status 0 and its captured output is not
    valid UTF-8, the script ends in an uncaught [UnicodeDecodeError] right
    after SUCCESS, with only the submit command launched, whether or not
    the bytes hold an identifier. *)
Theorem extraction_not_text args sh c1 :
  submit_cmd args = Some c1 ->
  returncode (sh 0%nat c1) = 0%Z ->
  utf8_decode (stdout (sh 0%nat c1)) = None ->
  workflow args sh []
  = (Raise UnicodeDecodeError,
     [Print (running_submit c1); Popen c1; Print success]).
Proof.
  intros Hc Hrc Hd. texts. rewrite workflow_run. cbv zeta.
  now rewrite Hrc, Hd.
Qed.

Lemma extraction_not_text_witness :
  workflow demo_args binary_then_id []
  = (Raise UnicodeDecodeError,
     [Print (running_submit (submit_text demo_args));
      Popen (submit_text demo_args); Print success]).
Proof.
  apply (extraction_not_text demo_args binary_then_id); reflexivity.
Defined.

(** ** What the script prints and what it ignores *)

Lemma acknowledged_split sh tr :
  forall n pre cmd post,
    acknowledged sh n tr -> tr = pre ++ Popen cmd :: post ->
    returncode (sh (n + List.length (popens pre))%nat cmd) = 0%Z ->
    exists post', post = Print success :: post'.
Proof.
  induction tr as [|e tr IH]; intros n pre cmd post Ha E Hrc.
  - destruct pre; discriminate.
  - destruct pre as [|e' pre]; simpl in E; injection E as -> E.
    + subst tr. simpl in Ha, Hrc. rewrite Nat.add_0_r in Hrc.
      now apply Ha.
    + destruct e' as [l|c]; simpl in Ha.
      * now apply (IH n pre cmd post).
      * destruct Ha as [_ Ha]. apply (IH (S n) pre cmd post); auto.
        cbn [popens flat_map app List.length] in Hrc.
        now rewrite Nat.add_succ_r in Hrc.
Qed.

Lemma acknowledged_failure sh n p : acknowledged sh n (failure_lines p).
Proof.
  unfold failure_lines.
  now destruct (utf8_decode (stdout p)), (utf8_decode (stderr p)).
Qed.

Lemma workflow_acknowledged args sh :
  acknowledged sh 0 (snd (workflow args sh [])).
Proof.
  run_cases args sh; cbn [acknowledged];
    repeat match goal with
           | |- _ /\ _ => split
           | |- True => exact I
           | |- _ -> exists r', _ = _ =>
             intros ?; first [eexists; reflexivity | contradiction]
           | |- acknowledged _ _ (failure_lines _) =>
             apply acknowledged_failure
           end.
Qed.

(** X6. In every run, each child process that exits with status 0 is
    followed at once by the line SUCCESS. *)
Theorem success_printed args sh pre cmd post :
  snd (workflow args sh []) = pre ++ Popen cmd :: post ->
  returncode (sh (List.length (popens pre)) cmd) = 0%Z ->
  exists post', post = Print success :: post'.
Proof.
  intros E Hrc.
  apply (acknowledged_split sh _ 0 pre cmd post
                            (workflow_acknowledged args sh) E Hrc).
Qed.

Lemma success_printed_witness :
  exists post',
    [Print success; Print (running (upload_text demo_args));
     Popen (upload_text demo_args);
     Print (errorcode_line
              (upload_fails_binary 2%nat (upload_text demo_args)));
     Print (stdout_line (lit " partial "))]
    = Print success :: post'.
Proof.
  apply (success_printed demo_args upload_fails_binary
           [Print (running_submit (submit_text demo_args));
            Popen (submit_text demo_args); Print success;
            Print (generated (lit demo_id));
            Print (running_manifest
                     (manifest_text demo_args (lit demo_id)))]
           (manifest_text demo_args (lit demo_id))).
  - reflexivity.
  - reflexivity.
Defined.

(** X7. The run does not depend on what a child that exits with status 0
    writes, the standard output of the first child apart: two worlds that
    agree on every exit status, on the standard output of the first child
    and on the streams of every child that fails give the same result and
    the same trace. *)
Theorem successful_output_ignored args sh sh' :
  (forall n c, returncode (sh n c) = returncode (sh' n c)) ->
  (forall c, stdout (sh 0%nat c) = stdout (sh' 0%nat c)) ->
  (forall n c, returncode (sh n c) <> 0%Z ->
               stdout (sh n c) = stdout (sh' n c)
               /\ stderr (sh n c) = stderr (sh' n c)) ->
  workflow args sh [] = workflow args sh' [].
Proof.
  intros Hrc Hout Hfail.
  assert (F : forall n c, returncode (sh n c) <> 0%Z ->
                          @failure_result unit (sh n c)
                          = failure_result (sh' n c)
                          /\ failure_lines (sh n c) = failure_lines (sh' n c)).
  { intros n c H. destruct (Hfail n c H) as [Ho He].
    unfold failure_result, failure_lines, errorcode_line.
    now rewrite Ho, He, Hrc. }
  rewrite !workflow_run. cbv zeta. rewrite <- !Hrc, <- Hout.
  destruct (returncode (sh 0%nat (submit_text args)) =? 0)%Z eqn:R1.
  - destruct (utf8_decode _) as [t|]; [|reflexivity].
    destruct (findall analysisId_re (strip t)) as [|id l]; [reflexivity|].
    rewrite <- !Hrc.
    destruct (returncode (sh 1%nat (manifest_text args id)) =? 0)%Z eqn:R2.
    + destruct (returncode (sh 2%nat (upload_text args)) =? 0)%Z eqn:R3.
      * destruct (returncode (sh 3%nat (publish_text args id)) =? 0)%Z eqn:R4;
          [reflexivity|].
        apply Z.eqb_neq, F in R4. destruct R4 as [-> ->]. reflexivity.
      * apply Z.eqb_neq, F in R3. destruct R3 as [-> ->]. reflexivity.
    + apply Z.eqb_neq, F in R2. destruct R2 as [-> ->]. reflexivity.
  - apply Z.eqb_neq, F in R1. destruct R1 as [-> ->]. reflexivity.
Qed.

Lemma successful_output_ignored_witness :
  workflow demo_args quiet_world [] = workflow demo_args chatty_world [].
Proof.
  apply (successful_output_ignored demo_args quiet_world chatty_world).
  - intros [|[|[|[|[|n]]]]] c; reflexivity.
  - intros c. reflexivity.
  - intros [|[|[|[|[|n]]]]] c H; vm_compute in H; now destruct H.
Defined.

(** ** The extraction *)

(** X8. The call of [strip] on line 65 changes nothing for the extraction:
    [findall] returns the same matches on the stripped text as on the
    decoded output itself. *)
Theorem strip_irrelevant_to_extraction t :
  findall analysisId_re (strip t) = findall analysisId_re t.
Proof.
  apply (findall_strip _ analysisId_re_nil analysisId_re_head
                       analysisId_re_atoms).
Qed.

(** X9. An output of step 1 that decodes to fewer than 36 characters,
    the empty output among them, holds no identifier: the extraction ends
    in [IndexError]. *)
Theorem short_output_no_identifier out t sh tr :
  utf8_decode out = Some t -> (List.length t < 36)%nat ->
  analysisId out sh tr = (Raise IndexError, tr).
Proof.
  intros Hd Hl. rewrite analysisId_run, Hd.
  pose proof (findall_analysisId t) as F.
  destruct (findall analysisId_re (strip t)) as [|u l]; [reflexivity|].
  destruct F as (Hu & i & (pre & post & E & _) & _).
  apply uuid_shaped_length in Hu. rewrite E in Hl.
  rewrite !length_app in Hl. lia.
Qed.

Lemma short_output_no_identifier_witness :
  analysisId (blit "ab12cd34-ef56-7890-ab12") quiet_world []
  = (Raise IndexError, []).
Proof.
  apply (short_output_no_identifier (blit "ab12cd34-ef56-7890-ab12")
           (lit "ab12cd34-ef56-7890-ab12")).
  - reflexivity.
  - vm_compute. lia.
Defined.

(** X10. The manifest and the publish command hand the identifier on
    without loss: two identifiers that give the same manifest command, or
    the same publish command, are equal. *)
Theorem identifier_recoverable args id id' :
  manifest_cmd args id = manifest_cmd args id'
  \/ publish_cmd args id = publish_cmd args id' ->
  id = id'.
Proof.
  assert (R : forall sub, registrar_text args sub = registrar_head args ++ sub).
  { intros sub. unfold registrar_head, registrar_text.
    rewrite <- ?app_assoc. reflexivity. }
  rewrite !manifest_cmd_text, !publish_cmd_text.
  unfold manifest_text, publish_text. rewrite !R.
  intros [H|H]; apply some_text in H;
    apply app_inv_head, app_inv_head, app_inv_tail in H; now symmetry.
Qed.

Lemma identifier_recoverable_witness : lit demo_id = lit demo_id.
Proof.
  apply (identifier_recoverable demo_args (lit demo_id) (lit demo_id)).
  left. reflexivity.
Defined.

(** ** The failure report *)



(** ** From the command line to the commands *)

(** X12. An option that is absent from an accepted command line has its
    default: the demo registrar and storage URLs and the study demoData,
    [None] for the file name and the directory; it is not the token, which
    no accepted command line lacks. *)
Theorem absent_option_has_default argv args d :
  parse_args argv = Parsed args ->
  (forall f, In f (option_strings d) -> ~ In f argv) ->
  args d = default d /\ d <> token.
Proof.
  intros Hp Hno.
  destruct (parse_args_parsed d argv args Hp)
    as [(pre & f & v & post & -> & Hf & _)|[Hv Hr]].
  - destruct (Hno f Hf). apply in_or_app. right. now left.
  - split; [assumption|]. intros ->. discriminate.
Qed.

Lemma absent_option_has_default_witness :
  exists args,
    parse_args [lit "-t"; lit "secret"; lit "--study"; lit "TEST-CA"]
    = Parsed args
    /\ args song_url = default song_url /\ song_url <> token.
Proof.
  eexists. split; [reflexivity|].
  apply (absent_option_has_default
           [lit "-t"; lit "secret"; lit "--study"; lit "TEST-CA"]).
  - reflexivity.
  - intros f [<-|[<-|[]]] H; vm_compute in H; intuition discriminate.
Defined.



(** ** How a run can end *)

(** X14. Building the four commands and the printed lines with [%] never
    raises [TypeError], whatever the configuration values and the
    identifier contain; the only [sys.exit] of the workflow has status 1;
    and an [IndexError] escapes only from the extraction, when step 1
    exited with status 0 and its output is text without a substring of
    the pattern's shape, with just the submit command launched. *)
Theorem run_outcomes args sh :
  fst (workflow args sh []) <> Raise TypeError
  /\ (forall c, fst (workflow args sh []) = Exit c -> c = 1%Z)
  /\ (fst (workflow args sh []) = Raise IndexError ->
      popens (snd (workflow args sh [])) = [submit_text args]
      /\ submit_cmd args = Some (submit_text args)
      /\ returncode (sh 0%nat (submit_text args)) = 0%Z
      /\ exists t,
          utf8_decode (stdout (sh 0%nat (submit_text args))) = Some t
          /\ forall v, uuid_shaped is_alnum v -> ~ occurs v t).
Proof.
  assert (F : forall p, @failure_result unit p = Exit 1
                        \/ @failure_result unit p = Raise UnicodeDecodeError).
  { intros p. unfold failure_result.
    destruct (utf8_decode (stdout p)), (utf8_decode (stderr p)); auto. }
  run_cases args sh;
    try match goal with
        | |- context [failure_result ?p] => destruct (F p) as [-> | ->]
        end;
    (split; [discriminate|]); (split; [now intros c [= <-]|]);
    try discriminate.
  intros _. repeat split; auto. exists t. split; [reflexivity|].
  pose proof (findall_analysisId t) as G. now rewrite F1 in G.
Qed.
